(** * DiagnoseUnknownCompileTimeValues: a shallow embedding

    The mandatory SIL pass of
    [lib/SILOptimizer/Mandatory/DiagnoseUnknownCompileTimeValues.cpp]
    walks a module and reports every [@const] global, local binding and
    call argument whose value the constant evaluator cannot fold.

    The pass is embedded as a computation that threads the evaluator
    object it owns ([ConstExprState], with the instruction counter and the
    allocator behind it), appends to the diagnostic sink, and may stop on
    a failed assertion or a subscript outside of what it indexes. *)

From Stdlib Require Import ZArith.
From stdpp Require Import base option list strings gmap.

Set Default Proof Using "Type".
Set Warnings "-register-all".
Local Open Scope nat_scope.

(** ** The AST and SIL data the pass reads *)

Abbreviation SourceLoc := nat (only parsing).
Abbreviation SILValue := nat (only parsing).
Abbreviation GlobalName := nat (only parsing).

(** The two diagnostics the pass can emit (DiagnosticsSIL). *)
Inductive DiagID : Type :=
| require_const_initializer_for_const
| require_const_arg_for_parameter.

Record Diagnostic : Type := mkDiagnostic {
  diagLoc : SourceLoc;
  diagID : DiagID
}.

(** [VarDecl], which [ParamDecl] derives from.  [Decl->diagnose] reports
    at [getLoc], [verifyLocal] reports at [getStartLoc]. *)
Record VarDecl : Type := mkVarDecl {
  isConstVal : bool;
  getLoc : SourceLoc;
  getStartLoc : SourceLoc
}.

Record FuncDecl : Type := mkFuncDecl {
  getParameters : list VarDecl
}.

(** One [Argument] of an [ArgumentList]. *)
Record Argument : Type := mkArgument {
  getArgLoc : SourceLoc
}.

(** The [ArgumentList] of a call expression: its own location, which is
    what [ArgumentList::getLoc()] answers, and its arguments. *)
Record ArgumentList : Type := mkArgumentList {
  getArgumentListLoc : SourceLoc;
  getArguments : list Argument
}.

(** [ApplyExpr::getArgs()] answers the pointer to the argument list of
    the call. *)
Record ApplyExpr : Type := mkApplyExpr {
  getArgs : ArgumentList
}.

(** A [SILLocation]: its source location and, when the location wraps
    one, the [ApplyExpr] that [getAsASTNode<ApplyExpr>()] yields. *)
Record SILLocation : Type := mkSILLocation {
  getSourceLoc : SourceLoc;
  getAsApplyExpr : option ApplyExpr
}.

(** The instruction kinds the pass tells apart with [dyn_cast]/[isa]; a
    [GlobalAddrInst] carries the users of its result (its use list). *)
Inductive SILInstruction : Type :=
| StructInst (getAllOperands : list SILValue)
| GlobalAddrInst (getReferencedGlobal : GlobalName)
                 (uses : list SILInstruction)
| StoreInst (getSrc getDest : SILValue)
| DebugValueInst (getDecl : option VarDecl) (getOperand : SILValue)
| ApplyInst (getCalleeFunction : option SILFunction)
            (getArguments : list SILValue) (getApplyLoc : SILLocation)
| OtherInst (opcode : nat)
with SILFunction : Type :=
| mkSILFunction (fnName : nat) (fnFuncDecl : option FuncDecl)
                (fnBlocks : list (list SILInstruction)).

Abbreviation SILBasicBlock := (list SILInstruction) (only parsing).

Definition fnName (F : SILFunction) : nat :=
  let 'mkSILFunction n _ _ := F in n.

(** [Fn.getLocation().getAsASTNode<FuncDecl>()]. *)
Definition getAsFuncDecl (F : SILFunction) : option FuncDecl :=
  let 'mkSILFunction _ d _ := F in d.

Definition getBlocks (F : SILFunction) : list SILBasicBlock :=
  let 'mkSILFunction _ _ bbs := F in bbs.

Record SILGlobalVariable : Type := mkSILGlobalVariable {
  globalName : GlobalName;
  getGlobalDecl : option VarDecl;
  getStaticInitializerValue : option SILInstruction
}.

Record SILModule : Type := mkSILModule {
  getSILGlobals : list SILGlobalVariable;
  getFunctions : list SILFunction
}.

(** [isa<StructInst>] and [isa<StoreInst>]. *)
Definition isaStructInst (I : SILInstruction) : bool :=
  match I with
  | StructInst _ => true
  | _ => false
  end.

Definition isaStoreInst (I : SILInstruction) : bool :=
  match I with
  | StoreInst _ _ => true
  | _ => false
  end.

Definition isaGlobalAddrInst (I : SILInstruction) : bool :=
  match I with
  | GlobalAddrInst _ _ => true
  | _ => false
  end.

(** [ValueBase::getSingleUse]: the use when there is exactly one. *)
Definition getSingleUse (uses : list SILInstruction) : option SILInstruction :=
  match uses with
  | [u] => Some u
  | _ => None
  end.

(** ** Symbolic values *)

(** Modelled from the spec: [SILConstants.h] is not part of the sources at
    hand.  The result type of the evaluator is the closed tagged union of
    the data model: Unknown, Integer, FloatingPoint, String and Aggregate.
    A floating-point payload is kept as the bit pattern of its literal. *)
Inductive SymbolicValue : Type :=
| Unknown
| Integer (value : Z)
| FloatingPoint (bits : Z)
| String (bytes : string)
| Aggregate (members : list SymbolicValue).

(** Modelled from the spec: the deep check, false as soon as an Unknown is
    met at any depth. *)
Fixpoint isConstant (v : SymbolicValue) : bool :=
  match v with
  | Unknown => false
  | Aggregate ms => forallb isConstant ms
  | _ => true
  end.

Definition isUnknown (v : SymbolicValue) : bool :=
  match v with
  | Unknown => true
  | _ => false
  end.

(** Modelled from the spec: the shallow check of the global-initializer
    walk, "contains only constants at top level": the value is known and
    none of its direct members is Unknown. *)
Definition containsOnlyConstants (v : SymbolicValue) : bool :=
  match v with
  | Unknown => false
  | Aggregate ms => forallb (fun m => negb (isUnknown m)) ms
  | _ => true
  end.

(** ** The collaborators of the pass *)

(** [ConstExprFunctionState] as the pass uses it: an object whose
    [getConstantValue] answers a query and may change the object (its
    cache of computed values and the instruction counter it refers to). *)
Class ConstExprEvaluator : Type := {
  ConstExprFunctionState : Type;
  getConstantValue :
    SILValue -> ConstExprFunctionState -> SymbolicValue * ConstExprFunctionState
}.

(** The shape of initializer the helpers recognise: one block, with one
    [global_addr], of the variable, and one store to that address. *)
Definition isStaticInitializerOf (g : GlobalName) (InitF : SILFunction) : bool :=
  match getBlocks InitF with
  | [BB] =>
      match filter (fun I => isaGlobalAddrInst I = true) BB with
      | [GlobalAddrInst referenced uses] =>
          Nat.eqb referenced g &&
          Nat.eqb (length (filter (fun user => isaStoreInst user = true) uses)) 1
      | _ => false
      end
  | _ => false
  end.

(** Modelled from the spec: the two helpers of [InstructionUtils] that
    recognise the initialize-once idiom are not part of the sources at
    hand.  [findInitializer] answers the initializer function that the
    once-call of an addressor runs; [getVariableOfGlobalInit] answers
    the variable an addressor initializes, and does so only when that
    initializer has the shape above, which is what the assertion of
    [verifyInitializeOnceGlobal] and its comment (the sole store to the
    global address) take for granted. *)
Class GlobalInitUtils : Type := {
  getVariableOfGlobalInit : SILFunction -> option GlobalName;
  findInitializer : SILFunction -> option SILFunction;
  getVariableOfGlobalInit_recognised :
    forall Fn g,
      getVariableOfGlobalInit Fn = Some g ->
      exists InitF,
        findInitializer Fn = Some InitF /\ isStaticInitializerOf g InitF = true
}.

(** ** The pass monad *)

(** How the pass can stop early: on an assertion that fails, or on a
    subscript outside of what it indexes (an [ArrayRef] at or past its
    size, a pointer to one object at any index but 0). *)
Inductive Fault : Type :=
| AssertionFailure
| IndexOutOfBounds.

Inductive Outcome (A : Type) : Type :=
| Done (a : A)
| Crash (f : Fault).
Arguments Done {A} a.
Arguments Crash {A} f.

Section PassMonad.
Context `{CE : ConstExprEvaluator}.

(** A step of the pass: from the evaluator object to an outcome, the
    diagnostics emitted on the way, and the evaluator object after. *)
Definition Pass (A : Type) : Type :=
  ConstExprFunctionState ->
  Outcome A * list Diagnostic * ConstExprFunctionState.

Definition ret {A} (a : A) : Pass A := fun s => (Done a, [], s).

Definition bind {A B} (m : Pass A) (k : A -> Pass B) : Pass B :=
  fun s =>
    match m s with
    | (Done a, d1, s1) =>
        let '(o, d2, s2) := k a s1 in (o, d1 ++ d2, s2)
    | (Crash f, d1, s1) => (Crash f, d1, s1)
    end.

Definition crash {A} (f : Fault) : Pass A := fun s => (Crash f, [], s).

(** [Diags.diagnose(loc, id)]: fire and forget. *)
Definition diagnose (loc : SourceLoc) (id : DiagID) : Pass unit :=
  fun s => (Done tt, [mkDiagnostic loc id], s).

(** [ConstExprState.getConstantValue(v)]. *)
Definition constantValueOf (v : SILValue) : Pass SymbolicValue :=
  fun s => let '(r, s') := getConstantValue v s in (Done r, [], s').

(** [xs[i]] on an [ArrayRef], or on a pointer to the objects [xs]: outside
    of them is a fault. *)
Definition subscript {A} (xs : list A) (i : nat) : Pass A :=
  match xs !! i with
  | Some x => ret x
  | None => crash IndexOutOfBounds
  end.

Definition outcomeOf {A} (r : Outcome A * list Diagnostic * ConstExprFunctionState)
  : Outcome A := r.1.1.
Definition diagnosticsOf {A} (r : Outcome A * list Diagnostic * ConstExprFunctionState)
  : list Diagnostic := r.1.2.
Definition stateOf {A} (r : Outcome A * list Diagnostic * ConstExprFunctionState)
  : ConstExprFunctionState := r.2.
End PassMonad.

Notation "'let*' x ':=' m 'in' k" := (bind m (fun x => k))
  (at level 10, x binder, m at level 100, k at level 200).
Notation "m ';;' k" := (bind m (fun _ => k))
  (at level 100, k at level 200, right associativity).

Section Loops.
Context `{CE : ConstExprEvaluator}.

(** A range-[for] whose body runs to its end. *)
Fixpoint forEach {A} (xs : list A) (body : A -> Pass unit) : Pass unit :=
  match xs with
  | [] => ret tt
  | x :: rest => body x;; forEach rest body
  end.

(** A range-[for] whose body may [return] from the enclosing function:
    the body answers [true] when it did, and the loop stops there. *)
Fixpoint forEachUntil {A} (xs : list A) (body : A -> Pass bool) : Pass bool :=
  match xs with
  | [] => ret false
  | x :: rest =>
      let* returned := body x in
      if returned then ret true else forEachUntil rest body
  end.
End Loops.

(** ** The pass *)

Section Pass.
Context `{CE : ConstExprEvaluator} `{GU : GlobalInitUtils}.

(** [verifyStaticallyInitializedGlobal]; [LLVM_DEBUG] blocks only trace
    and are left out. *)
Definition verifyStaticallyInitializedGlobal
    (Global : SILGlobalVariable) (Decl : VarDecl) : Pass unit :=
  match getStaticInitializerValue Global with
  | None => crash AssertionFailure
  | Some (StructInst operands) =>
      forEach operands (fun SIO =>
        let* value := constantValueOf SIO in
        if negb (containsOnlyConstants value)
        then diagnose (getLoc Decl) require_const_initializer_for_const
        else ret tt)
  | Some _ => ret tt
  end.

(** The body of the innermost loop of [verifyInitializeOnceGlobal]: one
    instruction of the initializer.  It answers [true] when the function
    returns from there. *)
Definition visitInitializerInstruction
    (Global : SILGlobalVariable) (I : SILInstruction) : Pass bool :=
  match I with
  | GlobalAddrInst referenced uses =>
      if Nat.eqb referenced (globalName Global) then
        match getSingleUse uses with
        | Some SoleUseUser =>
            match SoleUseUser with
            | StoreInst src _ =>
                let* value := constantValueOf src in
                ret (isConstant value)
            | _ => crash AssertionFailure
            end
        | None => ret false
        end
      else ret false
  | _ => ret false
  end.

Definition isGlobalInitOf (Global : SILGlobalVariable) (Fn : SILFunction) : bool :=
  match getVariableOfGlobalInit Fn with
  | Some g => Nat.eqb g (globalName Global)
  | None => false
  end.

Definition verifyInitializeOnceGlobal
    (M : SILModule) (Global : SILGlobalVariable) (Decl : VarDecl) : Pass unit :=
  let* returned :=
    forEachUntil (getFunctions M) (fun Fn =>
      if isGlobalInitOf Global Fn then
        match findInitializer Fn with
        | Some InitF =>
            forEachUntil (getBlocks InitF) (fun BB =>
              forEachUntil BB (visitInitializerInstruction Global))
        | None => ret false
        end
      else ret false) in
  if returned then ret tt
  else diagnose (getLoc Decl) require_const_initializer_for_const.

Definition verifyGlobals (M : SILModule) : Pass unit :=
  forEach (getSILGlobals M) (fun G =>
    match getGlobalDecl G with
    | Some Decl =>
        if isConstVal Decl then
          match getStaticInitializerValue G with
          | Some _ => verifyStaticallyInitializedGlobal G Decl
          | None => verifyInitializeOnceGlobal M G Decl
          end
        else ret tt
    | None => ret tt
    end).

(** [verifyLocal] of a [DebugValueInst], on the two fields it reads. *)
Definition verifyLocal (Decl : option VarDecl) (operand : SILValue) : Pass unit :=
  match Decl with
  | None => ret tt
  | Some D =>
      if negb (isConstVal D) then ret tt
      else
        let* value := constantValueOf operand in
        if negb (isConstant value)
        then diagnose (getStartLoc D) require_const_arg_for_parameter
        else ret tt
  end.

Definition verifyLocals (M : SILModule) : Pass unit :=
  forEach (getFunctions M) (fun F =>
    forEach (getBlocks F) (fun BB =>
      forEach BB (fun I =>
        match I with
        | DebugValueInst Decl operand => verifyLocal Decl operand
        | _ => ret tt
        end))).

(** The first loop of [verifyCallArguments] of an [ApplyInst]. *)
Definition hasConstParameter (CalleeParameters : list VarDecl) : bool :=
  existsb isConstVal CalleeParameters.

(** Where the diagnostic for index [i] goes.  [getArgs()] is a pointer
    to the one argument list of the call, so [getArgs()[i]] is that list
    at index 0 and a read past it at any other index; [getLoc()] is then
    the location of the list, not of an argument. *)
Definition argLocation (ApplyLoc : SILLocation) (i : nat) : Pass SourceLoc :=
  match getAsApplyExpr ApplyLoc with
  | Some ApplyExprNode =>
      let* list := subscript [getArgs ApplyExprNode] i in
      ret (getArgumentListLoc list)
  | None => ret (getSourceLoc ApplyLoc)
  end.

(** The body of the second loop, at index [i]. *)
Definition verifyCallArgumentAt
    (CalleeParameters : list VarDecl) (ApplyArgRefs : list SILValue)
    (ApplyLoc : SILLocation) (i : nat) : Pass unit :=
  let* CorrespondingArg := subscript ApplyArgRefs i in
  let* param := subscript CalleeParameters i in
  if isConstVal param then
    let* value := constantValueOf CorrespondingArg in
    if negb (isConstant value) then
      let* ArgLocation := argLocation ApplyLoc i in
      diagnose ArgLocation require_const_arg_for_parameter
    else ret tt
  else ret tt.

(** [verifyCallArguments] of an [ApplyInst], on the three fields it
    reads. *)
Definition verifyCallArgumentsOf
    (Callee : option SILFunction) (ApplyArgRefs : list SILValue)
    (ApplyLoc : SILLocation) : Pass unit :=
  match Callee with
  | None => ret tt
  | Some CalleeFn =>
      match getAsFuncDecl CalleeFn with
      | None => ret tt
      | Some CalleeDecl =>
          let CalleeParameters := getParameters CalleeDecl in
          if hasConstParameter CalleeParameters then
            forEach (seq 0 (length CalleeParameters))
              (verifyCallArgumentAt CalleeParameters ApplyArgRefs ApplyLoc)
          else ret tt
      end
  end.

Definition verifyCallArguments (M : SILModule) : Pass unit :=
  forEach (getFunctions M) (fun Fn =>
    forEach (getBlocks Fn) (fun BB =>
      forEach BB (fun I =>
        match I with
        | ApplyInst Callee args loc => verifyCallArgumentsOf Callee args loc
        | _ => ret tt
        end))).

Definition run (M : SILModule) : Pass unit :=
  verifyGlobals M;; verifyLocals M;; verifyCallArguments M.
End Pass.

(** ** The constant evaluator *)

Module Evaluator.

(** Modelled from the spec: [ConstExpr.cpp] is not part of the sources at
    hand.  A value is looked up by identity in the table of the
    instructions that define values; the kinds are the ones the
    evaluator's contract tells apart: literals, aggregate construction,
    calls of foldable builtins, and everything else. *)
Inductive BuiltinKind : Type :=
| IntegerAdd
| IntegerSub
| IntegerMul
| StringConcat.

Inductive ValueDef : Type :=
| IntegerLiteralInst (value : Z)
| FloatLiteralInst (bits : Z)
| StringLiteralInst (bytes : string)
| AggregateInst (operands : list SILValue)
| BuiltinApply (kind : BuiltinKind) (operands : list SILValue)
| Unrecognised.

(** Modelled from the spec: the evaluation state is the monotonic
    evaluation counter and the cache from value identity to the value
    last computed for it (which stays empty when the evaluator does not
    memoize). *)
Record EvaluationState : Type := mkEvaluationState {
  counter : nat;
  calculatedValues : gmap nat SymbolicValue
}.

Definition initialState : EvaluationState :=
  mkEvaluationState 0 ∅.

Definition tick (st : EvaluationState) : EvaluationState :=
  mkEvaluationState (S (counter st)) (calculatedValues st).

Definition remember (v : SILValue) (r : SymbolicValue) (st : EvaluationState)
  : EvaluationState :=
  mkEvaluationState (counter st) (<[v := r]> (calculatedValues st)).


(** Modelled from the spec: folding a recognised builtin over constant
    operands; any other shape of operands is not folded. *)
Definition foldBuiltin (kind : BuiltinKind) (args : list SymbolicValue)
  : SymbolicValue :=
  match kind, args with
  | IntegerAdd, [Integer a; Integer b] => Integer (a + b)
  | IntegerSub, [Integer a; Integer b] => Integer (a - b)
  | IntegerMul, [Integer a; Integer b] => Integer (a * b)
  | StringConcat, [String a; String b] => String (a +:+ b)
  | _, _ => Unknown
  end.

(** A step of an evaluation either produced a value or gave up because
    the budget ran out, which ends the whole top-level request. *)
Inductive Partial (A : Type) : Type :=
| Folded (a : A)
| Aborted.
Arguments Folded {A} a.
Arguments Aborted {A}.

(** Operands are evaluated left to right; the first one that gives up
    ends the walk. *)
Fixpoint evaluateOperands
    (ev : SILValue -> EvaluationState ->
          option (Partial SymbolicValue * EvaluationState))
    (operands : list SILValue) (st : EvaluationState)
  : option (Partial (list SymbolicValue) * EvaluationState) :=
  match operands with
  | [] => Some (Folded [], st)
  | v :: rest =>
      match ev v st with
      | None => None
      | Some (Aborted, st1) => Some (Aborted, st1)
      | Some (Folded r, st1) =>
          match evaluateOperands ev rest st1 with
          | None => None
          | Some (Aborted, st2) => Some (Aborted, st2)
          | Some (Folded rs, st2) => Some (Folded (r :: rs), st2)
          end
      end
  end.

Section Evaluate.
(** The instructions defining the values of the module, and the
    configured ceiling of the evaluation counter. *)
Variable defs : gmap nat ValueDef.
Variable ceiling : nat.
(** Whether the evaluator memoizes its answers: the contract leaves it
    to the implementation. *)
Variable memoize : bool.

Definition recall (v : SILValue) (st : EvaluationState) : option SymbolicValue :=
  if memoize then calculatedValues st !! v else None.

Definition keep (v : SILValue) (r : SymbolicValue) (st : EvaluationState)
  : EvaluationState :=
  if memoize then remember v r st else st.

Definition finish (v : SILValue) (r : SymbolicValue) (st : EvaluationState)
  : option (Partial SymbolicValue * EvaluationState) :=
  Some (Folded r, keep v r st).

(** Modelled from the spec: the evaluator's contract.  A memoizing
    evaluator answers a value it has an answer for from its cache,
    which takes no step (the contract does not say where the cache is
    consulted; nothing below depends on it but [evaluator_memoizes]).
    Otherwise the counter is incremented and checked against the
    ceiling before the value is looked at; literals yield themselves, an
    aggregate is built when all its operands are constant, a builtin is
    folded over its operands, and anything else is Unknown.  [depth]
    bounds the nesting of the recursion, [None] meaning it was too
    small. *)
Fixpoint evaluateWithin (depth : nat) (v : SILValue) (st : EvaluationState)
  : option (Partial SymbolicValue * EvaluationState) :=
  match depth with
  | 0 => None
  | S depth' =>
      match recall v st with
      | Some r => Some (Folded r, st)
      | None =>
          let st1 := tick st in
          if ceiling <? counter st1 then Some (Aborted, st1)
          else
            match defs !! v with
            | Some (IntegerLiteralInst z) => finish v (Integer z) st1
            | Some (FloatLiteralInst b) => finish v (FloatingPoint b) st1
            | Some (StringLiteralInst s) => finish v (String s) st1
            | Some (AggregateInst operands) =>
                match evaluateOperands (evaluateWithin depth') operands st1 with
                | None => None
                | Some (Aborted, st2) => Some (Aborted, st2)
                | Some (Folded rs, st2) =>
                    finish v
                      (if forallb isConstant rs then Aggregate rs else Unknown)
                      st2
                end
            | Some (BuiltinApply kind operands) =>
                match evaluateOperands (evaluateWithin depth') operands st1 with
                | None => None
                | Some (Aborted, st2) => Some (Aborted, st2)
                | Some (Folded rs, st2) => finish v (foldBuiltin kind rs) st2
                end
            | Some Unrecognised | None => finish v Unknown st1
            end
      end
  end.

(** Modelled from the spec: [evaluate(value, state) -> SymbolicValue].
    An evaluation that gave up answers Unknown for the whole request,
    and the answer is kept like any other.  The nesting of an
    evaluation never passes the ceiling (see [evaluateWithin_total]),
    so the last case is not taken. *)
Definition evaluate (v : SILValue) (st : EvaluationState)
  : SymbolicValue * EvaluationState :=
  match evaluateWithin (S ceiling) v st with
  | Some (Folded r, st') => (r, st')
  | Some (Aborted, st') => (Unknown, keep v Unknown st')
  | None => (Unknown, st)
  end.
End Evaluate.

(** The evaluator as the collaborator the pass expects. *)
Definition asConstExprEvaluator (defs : gmap nat ValueDef) (ceiling : nat)
    (memoize : bool) : ConstExprEvaluator :=
  {| ConstExprFunctionState := EvaluationState;
     getConstantValue := evaluate defs ceiling memoize |}.

(** A later state of the evaluation: the counter has not gone back and
    every cached answer is still there. *)
Definition extends (st st' : EvaluationState) : Prop :=
  counter st <= counter st' /\ calculatedValues st ⊆ calculatedValues st'.

(** An answer is settled when it is Unknown as a whole or constant all
    the way down; a cache is settled when all its answers are. *)
Definition settled (r : SymbolicValue) : bool := isUnknown r || isConstant r.

Definition cacheSettled (st : EvaluationState) : Prop :=
  map_Forall (fun _ r => settled r = true) (calculatedValues st).

End Evaluator.

(** The initialize-once idiom as a record of the module: for the name of
    an addressor function, the global it is meant to initialize lazily
    and the initializer function its once-call runs.  The addressor is
    recognised when that initializer has the shape of a static
    initializer of the global. *)
Definition recordedVariable (table : gmap nat (GlobalName * SILFunction))
    (Fn : SILFunction) : option GlobalName :=
  match table !! fnName Fn with
  | Some (g, InitF) => if isStaticInitializerOf g InitF then Some g else None
  | None => None
  end.

Definition recordedInitializer (table : gmap nat (GlobalName * SILFunction))
    (Fn : SILFunction) : option SILFunction :=
  snd <$> table !! fnName Fn.

Definition recordedGlobalInits
    (table : gmap nat (GlobalName * SILFunction)) : GlobalInitUtils.
Proof.
  refine {| getVariableOfGlobalInit := recordedVariable table;
            findInitializer := recordedInitializer table |}.
  intros Fn g. unfold recordedVariable, recordedInitializer.
  destruct (table !! fnName Fn) as [[g0 InitF]|]; [|discriminate].
  destruct (isStaticInitializerOf g0 InitF) eqn:Hshape; [|discriminate].
  intros [= <-]. exists InitF. split; [reflexivity|exact Hshape].
Defined.

(** ** What the checks are expected to report *)

Section Expectations.
Context `{CE : ConstExprEvaluator} `{GU : GlobalInitUtils}.

(** The answers of the evaluator object to a sequence of queries made
    one after the other, and the object after the last one. *)
Fixpoint evaluateAll (vs : list SILValue) (s : ConstExprFunctionState)
  : list SymbolicValue * ConstExprFunctionState :=
  match vs with
  | [] => ([], s)
  | v :: rest =>
      let '(r, s1) := getConstantValue v s in
      let '(rs, s2) := evaluateAll rest s1 in
      (r :: rs, s2)
  end.

(** Static initializers: one diagnostic at the declaration for an
    operand whose value does not contain only constants. *)
Definition initializerReport (Decl : VarDecl) (r : SymbolicValue)
  : list Diagnostic :=
  if containsOnlyConstants r then []
  else [mkDiagnostic (getLoc Decl) require_const_initializer_for_const].

(** Local bindings: the constant-required bindings of a module in
    layout order, and the diagnostic for one of them. *)
Definition constRequiredBinding (I : SILInstruction)
  : list (VarDecl * SILValue) :=
  match I with
  | DebugValueInst (Some D) operand =>
      if isConstVal D then [(D, operand)] else []
  | _ => []
  end.

Definition constRequiredBindings (M : SILModule) : list (VarDecl * SILValue) :=
  flat_map (fun F => flat_map (flat_map constRequiredBinding) (getBlocks F))
           (getFunctions M).

Definition bindingReport (D : VarDecl) (r : SymbolicValue) : list Diagnostic :=
  if isConstant r then []
  else [mkDiagnostic (getStartLoc D) require_const_arg_for_parameter].

(** Call arguments: the location the check reports at for each
    parameter index of a call it can walk to its end.  Without a call
    expression behind the location of the call, it is the location of
    the call.  With one, it is the location of its argument list, and
    only the first parameter may be constant-required: for a later one
    the argument list would be read past its end.  Then the argument
    sites of the constant-required parameters, and the diagnostic for
    one of them. *)
Definition argumentLocations (ApplyLoc : SILLocation) (params : list VarDecl)
  : option (list SourceLoc) :=
  match getAsApplyExpr ApplyLoc with
  | Some ApplyExprNode =>
      if existsb isConstVal (drop 1 params) then None
      else Some (replicate (length params)
                   (getArgumentListLoc (getArgs ApplyExprNode)))
  | None => Some (replicate (length params) (getSourceLoc ApplyLoc))
  end.

Definition constRequiredSite (site : VarDecl * (SILValue * SourceLoc))
  : list (SourceLoc * SILValue) :=
  let '(param, (arg, loc)) := site in
  if isConstVal param then [(loc, arg)] else [].

Definition constRequiredSites
    (params : list VarDecl) (args : list SILValue) (locs : list SourceLoc)
  : list (SourceLoc * SILValue) :=
  flat_map constRequiredSite (zip params (zip args locs)).

Definition argumentReport (loc : SourceLoc) (r : SymbolicValue)
  : list Diagnostic :=
  if isConstant r then []
  else [mkDiagnostic loc require_const_arg_for_parameter].

(** The diagnostics of a sequence of sites, each with the answer the
    evaluator gave for it. *)
Definition reports {X} (report : X -> SymbolicValue -> list Diagnostic)
    (sites : list X) (answers : list SymbolicValue) : list Diagnostic :=
  flat_map (fun '(x, r) => report x r) (zip sites answers).

(** Initialize-once globals: the values stored to the address of the
    global as its single use, in the order the check meets them, and
    the shape the check takes for granted (a single use is a store). *)
Definition storedToGlobal (Global : SILGlobalVariable) (I : SILInstruction)
  : list SILValue :=
  match I with
  | GlobalAddrInst referenced [StoreInst src _] =>
      if Nat.eqb referenced (globalName Global) then [src] else []
  | _ => []
  end.

Definition singleUseIsStore (Global : SILGlobalVariable) (I : SILInstruction)
  : bool :=
  match I with
  | GlobalAddrInst referenced [user] =>
      if Nat.eqb referenced (globalName Global) then isaStoreInst user
      else true
  | _ => true
  end.

(** The initializer functions the check walks for a global. *)
Definition initializersOf (M : SILModule) (Global : SILGlobalVariable)
  : list SILFunction :=
  flat_map (fun Fn =>
    if isGlobalInitOf Global Fn then
      match findInitializer Fn with
      | Some InitF => [InitF]
      | None => []
      end
    else []) (getFunctions M).

Definition instructionsOf (F : SILFunction) : list SILInstruction :=
  concat (getBlocks F).

Definition initializingStores (M : SILModule) (Global : SILGlobalVariable)
  : list SILValue :=
  flat_map (fun InitF => flat_map (storedToGlobal Global) (instructionsOf InitF))
           (initializersOf M Global).

Definition singleUsesAreStores (M : SILModule) (Global : SILGlobalVariable)
  : bool :=
  forallb (fun InitF => forallb (singleUseIsStore Global) (instructionsOf InitF))
          (initializersOf M Global).



(** Evaluating the values of a sequence of sites and reporting on each
    answer, as one computation of the pass. *)
Definition reportAll {X} (report : X -> SymbolicValue -> list Diagnostic)
    (sites : list (X * SILValue)) : Pass unit :=
  fun s =>
    let '(answers, s') := evaluateAll sites.*2 s in
    (Done tt, reports report sites.*1 answers, s').

(** Looking for the first value of a sequence that evaluates to a
    constant, as one computation of the pass. *)
Definition searchConstant (vs : list SILValue) : Pass bool :=
  forEachUntil vs (fun v => let* r := constantValueOf v in ret (isConstant r)).

(** A computation that can only stop on the fault [f]. *)
Definition faultsOnlyWith {A} (f : Fault) (m : Pass A) : Prop :=
  forall s, match outcomeOf (m s) with
            | Done _ => True
            | Crash f' => f' = f
            end.

(** ** Running the pass again on the same pass object *)



End Expectations.

(** ** Concrete modules used by the examples *)

Module Examples.
Import Evaluator.

(** Values 0 to 3 are foldable; values 8 and 9 have no foldable
    definition (say, results of calls to opaque functions). *)
Definition exampleDefs : gmap nat ValueDef :=
  list_to_map
    [(0, IntegerLiteralInst 7); (1, StringLiteralInst "swift");
     (2, AggregateInst [0; 1]); (3, BuiltinApply IntegerAdd [0; 0])].

Definition exampleEvaluator : ConstExprEvaluator :=
  asConstExprEvaluator exampleDefs 3072 true.

(** An evaluator without state: the values below 8 fold, the others do
    not. *)
Definition statelessEvaluator : ConstExprEvaluator :=
  {| ConstExprFunctionState := unit;
     getConstantValue := fun v s => (if v <? 8 then Integer 7 else Unknown, s) |}.

Definition constDecl : VarDecl := mkVarDecl true 100 99.

(** [@const static let g = S(7, opaque(), opaque())]. *)
Definition twoOpaqueOperands : SILGlobalVariable :=
  mkSILGlobalVariable 1 (Some constDecl) (Some (StructInst [0; 8; 9])).

(** A static initializer that is not a [StructInst]. *)
Definition literalInitialized : SILGlobalVariable :=
  mkSILGlobalVariable 2 (Some constDecl) (Some (OtherInst 0)).

(** [func f(_ u: (), _ x: @const Int)]: the empty tuple takes no SIL
    argument, so a call passes one operand for two parameters. *)
Definition calleeDecl : FuncDecl :=
  mkFuncDecl [mkVarDecl false 10 10; mkVarDecl true 11 11].
Definition calleeFn : SILFunction := mkSILFunction 20 (Some calleeDecl) [].
Definition shortCallArgs : list SILValue := [8].
Definition plainCallLoc : SILLocation := mkSILLocation 50 None.

(** A call of the same callee with both operands, the second opaque,
    whose location wraps the call expression. *)
Definition fullCallArgs : list SILValue := [0; 8].
Definition exprCallLoc : SILLocation :=
  mkSILLocation 50
    (Some (mkApplyExpr (mkArgumentList 49 [mkArgument 51; mkArgument 52]))).

(** An initialize-once global, its addressor (function 30) and two
    shapes of initializer (function 31): the address used once by
    something that is not a store, and the address stored to once. *)
Definition lazyGlobal : SILGlobalVariable :=
  mkSILGlobalVariable 3 (Some constDecl) None.
Definition addressor : SILFunction := mkSILFunction 30 None [].
Definition initializerWithStore : SILFunction :=
  mkSILFunction 31 None [[OtherInst 2; GlobalAddrInst 3 [StoreInst 2 40]]].

Definition storeInits : GlobalInitUtils :=
  recordedGlobalInits {[ 30 := (3, initializerWithStore) ]}.

Definition storeModule : SILModule :=
  mkSILModule [lazyGlobal] [addressor; initializerWithStore].

(** Aggregates nested in each other: value [k + 1] wraps value [k]. *)
Definition nestedDefs : gmap nat ValueDef :=
  list_to_map
    [(0, IntegerLiteralInst 1); (1, AggregateInst [0]); (2, AggregateInst [1]);
     (3, AggregateInst [2]); (4, AggregateInst [3]); (5, AggregateInst [4])].

(** A module with all three kinds of site: the global with two opaque
    operands and the lazily initialized one, and a function that binds a
    constant-required local to an opaque value and calls [calleeFn] with
    an opaque second argument. *)
Definition callerFn : SILFunction :=
  mkSILFunction 40 None
    [[DebugValueInst (Some (mkVarDecl true 60 61)) 9;
      DebugValueInst (Some (mkVarDecl false 62 63)) 9;
      DebugValueInst None 9];
     [ApplyInst (Some calleeFn) fullCallArgs exprCallLoc;
      ApplyInst None [8; 9] plainCallLoc]].

Definition wholeModule : SILModule :=
  mkSILModule [twoOpaqueOperands; lazyGlobal]
    [addressor; initializerWithStore; callerFn].

End Examples.

(** ** Further expectations on the pass *)

Section FurtherExpectations.
Context `{CE : ConstExprEvaluator} `{GU : GlobalInitUtils}.

(** A global the global check looks at: it has a declaration and the
    declaration is constant-required. *)
Definition isConstRequiredGlobal (G : SILGlobalVariable) : bool :=
  match getGlobalDecl G with
  | Some Decl => isConstVal Decl
  | None => false
  end.

(** An instruction one of the two instruction walks looks at: a debug
    binding of a constant-required declaration, or a call of a resolved
    callee with a constant-required parameter. *)
Definition usesConstInstruction (I : SILInstruction) : bool :=
  match I with
  | DebugValueInst (Some Decl) _ => isConstVal Decl
  | ApplyInst (Some CalleeFn) _ _ =>
      match getAsFuncDecl CalleeFn with
      | Some CalleeDecl => hasConstParameter (getParameters CalleeDecl)
      | None => false
      end
  | _ => false
  end.

Definition usesConst (M : SILModule) : bool :=
  existsb isConstRequiredGlobal (getSILGlobals M)
  || existsb (fun F => existsb (existsb usesConstInstruction) (getBlocks F))
             (getFunctions M).

(** A computation all of whose diagnostics satisfy [P] and whose result,
    when it ends normally, satisfies [Q]. *)
Definition ensures {A} (P : Diagnostic -> Prop) (Q : A -> Prop) (m : Pass A)
  : Prop :=
  forall s,
    Forall P (diagnosticsOf (m s)) /\
    match outcomeOf (m s) with
    | Done a => Q a
    | Crash _ => True
    end.

Definition emitsOnly {A} (P : Diagnostic -> Prop) (m : Pass A) : Prop :=
  ensures P (fun _ => True) m.

(** A computation that never stops on a fault. *)
Definition neverFaults {A} (m : Pass A) : Prop :=
  forall s, exists a, outcomeOf (m s) = Done a.

(** The initialize-once globals of a module, and the shape the check
    takes for granted, for all of them. *)
Definition isInitializeOnceGlobal (G : SILGlobalVariable) : bool :=
  isConstRequiredGlobal G &&
  match getStaticInitializerValue G with
  | Some _ => false
  | None => true
  end.

Definition initializersAreStores (M : SILModule) : bool :=
  forallb (fun G => negb (isInitializeOnceGlobal G) || singleUsesAreStores M G)
          (getSILGlobals M).

(** A call the argument check can walk to its end whatever the
    evaluator answers: when the callee has a constant-required
    parameter, every parameter index has an operand, and a
    constant-required parameter after the first comes only with a
    location that has no call expression behind it. *)
Definition isCompleteCall (I : SILInstruction) : bool :=
  match I with
  | ApplyInst (Some CalleeFn) args ApplyLoc =>
      match getAsFuncDecl CalleeFn with
      | Some CalleeDecl =>
          let params := getParameters CalleeDecl in
          negb (hasConstParameter params)
          || ((length params <=? length args) &&
              match argumentLocations ApplyLoc params with
              | Some _ => true
              | None => false
              end)
      | None => true
      end
  | _ => true
  end.

Definition callsAreComplete (M : SILModule) : bool :=
  forallb (fun F => forallb (forallb isCompleteCall) (getBlocks F))
          (getFunctions M).

(** The argument sites of the constant-required parameters of one call
    and of a whole module, in layout order. *)
Definition constRequiredSitesOfCall (I : SILInstruction)
  : list (SourceLoc * SILValue) :=
  match I with
  | ApplyInst (Some CalleeFn) args ApplyLoc =>
      match getAsFuncDecl CalleeFn with
      | Some CalleeDecl =>
          let params := getParameters CalleeDecl in
          match argumentLocations ApplyLoc params with
          | Some locs => constRequiredSites params args locs
          | None => []
          end
      | None => []
      end
  | _ => []
  end.

Definition constRequiredSitesOf (M : SILModule) : list (SourceLoc * SILValue) :=
  flat_map (fun F => flat_map (flat_map constRequiredSitesOfCall) (getBlocks F))
           (getFunctions M).

(** Every initialize-once global of the module has a store to look at. *)
Definition initializersHaveStores (M : SILModule) : bool :=
  forallb (fun G =>
             negb (isInitializeOnceGlobal G)
             || match initializingStores M G with
                | [] => false
                | _ :: _ => true
                end)
          (getSILGlobals M).

(** An evaluator that folds every value it is asked about. *)
Definition FoldsEverything : Prop :=
  forall v s,
    isConstant (getConstantValue v s).1 = true /\
    containsOnlyConstants (getConstantValue v s).1 = true.

(** The diagnostics the global check can emit for a module: an
    initializer diagnostic at the declaration of one of its
    constant-required globals. *)
Definition globalDiagnosticOf (M : SILModule) (d : Diagnostic) : Prop :=
  diagID d = require_const_initializer_for_const /\
  exists G Decl,
    G ∈ getSILGlobals M /\ getGlobalDecl G = Some Decl /\
    isConstVal Decl = true /\ diagLoc d = getLoc Decl.

Definition argumentDiagnostic (d : Diagnostic) : Prop :=
  diagID d = require_const_arg_for_parameter.
End FurtherExpectations.

(** ** The async caller execution migration warning

    [lib/Sema/AsyncCallerExecutionMigration.cpp]: the warning that the
    execution behavior of a nonisolated async function, closure or
    function type changes under [AsyncCallerExecution], with the fix-it
    that keeps the current behavior.  [diagnose] is embedded as a
    function from the target to what it emits, or to the assertion it
    trips. *)

Module Migration.

(** The isolation queries the warning reads. *)
Record ActorIsolation : Type := mkActorIsolation {
  isNonisolated : bool;
  isUnspecified : bool
}.

Record FunctionTypeIsolation : Type := mkFunctionTypeIsolation {
  isNonIsolated : bool
}.

Record AccessorDecl : Type := mkAccessorDecl {
  getAccessorLoc : SourceLoc
}.

(** The kinds of [ValueDecl] the warning tells apart with [dyn_cast]. *)
Inductive ValueDeclKind : Type :=
| AbstractFunctionDecl
| AbstractStorageDecl (getParsedGetter : option AccessorDecl)
                      (getSetter : option AccessorDecl)
| OtherValueDecl.

Record ValueDecl : Type := mkValueDecl {
  declKind : ValueDeclKind;
  declIsImplicit : bool;
  (** [DeclAttribute::canAttributeAppearOnDecl(DeclAttrKind::Execution, decl)] *)
  canExecutionAttrAppear : bool;
  declHasExecutionAttr : bool;
  declIsAsync : bool;
  getDeclLoc : SourceLoc;
  getAttributeInsertionLoc : SourceLoc
}.

Inductive ClosureKind : Type :=
| ClosureExpr
| AutoClosureExpr.

Record AbstractClosureExpr : Type := mkAbstractClosureExpr {
  closureKind : ClosureKind;
  closureIsImplicit : bool;
  closureHasExecutionAttr : bool;
  isBodyAsync : bool;
  getClosureLoc : SourceLoc
}.

Record FunctionTypeRepr : Type := mkFunctionTypeRepr {
  reprIsAsync : bool;
  getStartLoc : SourceLoc
}.

(** [AsyncCallerExecutionMigrationTarget], by the constructor that built
    it; the node pointer may be null. *)
Inductive AsyncCallerExecutionMigrationTarget : Type :=
| DeclTarget (decl : option ValueDecl) (isolation : ActorIsolation)
| ClosureTarget (closure : option AbstractClosureExpr) (isolation : ActorIsolation)
| TypeReprTarget (repr : option FunctionTypeRepr) (isolation : FunctionTypeIsolation).

Inductive MigrationDiagID : Type :=
| attr_execution_nonisolated_behavior_will_change_decl
| attr_execution_nonisolated_behavior_will_change_closure
| attr_execution_nonisolated_behavior_will_change_typerepr.

(** Where the fix-it puts [@execution(concurrent)]. *)
Inductive FixIt : Type :=
| fixItInsertAttribute (loc : SourceLoc)
| fixItAddAttribute (closure : AbstractClosureExpr).

Record MigrationDiagnostic : Type := mkMigrationDiagnostic {
  migrationLoc : SourceLoc;
  migrationID : MigrationDiagID;
  migrationFixIt : FixIt
}.

(** The last part of [diagnose] for a declaration: which function is
    named, and the diagnostic. *)
Definition diagnoseDecl (decl : ValueDecl)
  : Outcome (option MigrationDiagnostic) :=
  let emit functionLoc :=
    Done (Some (mkMigrationDiagnostic functionLoc
                  attr_execution_nonisolated_behavior_will_change_decl
                  (fixItInsertAttribute (getAttributeInsertionLoc decl)))) in
  match declKind decl with
  | AbstractFunctionDecl => emit (getDeclLoc decl)
  | AbstractStorageDecl parsedGetter setter =>
      match setter with
      | Some _ => Crash AssertionFailure
      | None =>
          match parsedGetter with
          | Some functionDecl => emit (getAccessorLoc functionDecl)
          | None => Crash AssertionFailure
          end
      end
  | OtherValueDecl => Crash AssertionFailure
  end.

(** [AsyncCallerExecutionMigrationTarget::diagnose]; [enabledForAdoption]
    is [ctx.LangOpts.getFeatureState(feature).isEnabledForAdoption()]. *)
Definition diagnose (enabledForAdoption : bool)
    (target : AsyncCallerExecutionMigrationTarget)
  : Outcome (option MigrationDiagnostic) :=
  match target with
  | DeclTarget None _ | ClosureTarget None _ | TypeReprTarget None _ =>
      Crash AssertionFailure
  | DeclTarget (Some decl) isolation =>
      if negb enabledForAdoption then Crash AssertionFailure
      else if declIsImplicit decl then Done None
      else if negb (canExecutionAttrAppear decl) then Done None
      else if match declKind decl with
              | AbstractStorageDecl None _ => true
              | _ => false
              end then Done None
      else if negb (isNonisolated isolation || isUnspecified isolation)
      then Done None
      else if declHasExecutionAttr decl then Done None
      else if negb (declIsAsync decl) then Done None
      else diagnoseDecl decl
  | ClosureTarget (Some anyClosure) isolation =>
      if negb enabledForAdoption then Crash AssertionFailure
      else if closureIsImplicit anyClosure then Done None
      else
        match closureKind anyClosure with
        | AutoClosureExpr => Crash AssertionFailure
        | ClosureExpr =>
            if negb (isNonisolated isolation || isUnspecified isolation)
            then Done None
            else if closureHasExecutionAttr anyClosure then Done None
            else if negb (isBodyAsync anyClosure) then Done None
            else Done (Some (mkMigrationDiagnostic (getClosureLoc anyClosure)
                               attr_execution_nonisolated_behavior_will_change_closure
                               (fixItAddAttribute anyClosure)))
        end
  | TypeReprTarget (Some functionRepr) isolation =>
      if negb enabledForAdoption then Crash AssertionFailure
      else if negb (isNonIsolated isolation) then Done None
      else if negb (reprIsAsync functionRepr) then Done None
      else Done (Some (mkMigrationDiagnostic (getStartLoc functionRepr)
                         attr_execution_nonisolated_behavior_will_change_typerepr
                         (fixItInsertAttribute (getStartLoc functionRepr))))
  end.


(** The four conditions of the warning, read off a target. *)
Definition targetIsExplicit (target : AsyncCallerExecutionMigrationTarget) : bool :=
  match target with
  | DeclTarget (Some decl) _ => negb (declIsImplicit decl)
  | ClosureTarget (Some closure) _ => negb (closureIsImplicit closure)
  | TypeReprTarget (Some _) _ => true
  | _ => false
  end.

Definition targetIsNonisolated (target : AsyncCallerExecutionMigrationTarget)
  : bool :=
  match target with
  | DeclTarget _ isolation | ClosureTarget _ isolation =>
      isNonisolated isolation || isUnspecified isolation
  | TypeReprTarget _ isolation => isNonIsolated isolation
  end.

Definition targetHasExecutionAttr (target : AsyncCallerExecutionMigrationTarget)
  : bool :=
  match target with
  | DeclTarget (Some decl) _ => declHasExecutionAttr decl
  | ClosureTarget (Some closure) _ => closureHasExecutionAttr closure
  | _ => false
  end.

Definition targetIsAsync (target : AsyncCallerExecutionMigrationTarget) : bool :=
  match target with
  | DeclTarget (Some decl) _ => declIsAsync decl
  | ClosureTarget (Some closure) _ => isBodyAsync closure
  | TypeReprTarget (Some repr) _ => reprIsAsync repr
  | _ => false
  end.

(** A function declaration the attribute can appear on, a closure
    expression, or a function type. *)
Definition isFunctionLike (target : AsyncCallerExecutionMigrationTarget) : bool :=
  match target with
  | DeclTarget (Some decl) _ =>
      canExecutionAttrAppear decl &&
      match declKind decl with
      | AbstractFunctionDecl => true
      | _ => false
      end
  | ClosureTarget (Some closure) _ =>
      match closureKind closure with
      | ClosureExpr => true
      | AutoClosureExpr => false
      end
  | TypeReprTarget (Some _) _ => true
  | _ => false
  end.

(** A target [diagnose] has no assertion for: not null, a closure that
    is implicit or a [ClosureExpr], a declaration that is a function or a
    storage declaration without a setter. *)
Definition isExpected (target : AsyncCallerExecutionMigrationTarget) : bool :=
  match target with
  | DeclTarget (Some decl) _ =>
      match declKind decl with
      | AbstractFunctionDecl => true
      | AbstractStorageDecl _ None => true
      | _ => false
      end
  | ClosureTarget (Some closure) _ =>
      closureIsImplicit closure ||
      match closureKind closure with
      | ClosureExpr => true
      | AutoClosureExpr => false
      end
  | TypeReprTarget (Some _) _ => true
  | _ => false
  end.

End Migration.

(** ** The C++ interoperability header

    [lib/PrintAsClang/_SwiftCxxInteroperability.h]: the classes that
    hold an opaque Swift value, a reference-counted Swift object and a
    Swift error on the C++ side.  The objects are kept in a store by
    identity, so that two operands of an operation may be the same
    object; the calls into the C heap and the Swift runtime are
    recorded. *)

Module CxxInterop.

(** What can go wrong in a program that uses the classes of the header:
    [free] of a block that is not allocated, an operation on an object
    that does not exist (or the construction of one that does), and
    [abort()]. *)
Inductive InteropFault : Type :=
| InvalidFree
| NoSuchObject
| Aborted.

Inductive Result (A : Type) : Type :=
| Ok (a : A)
| Err (f : InteropFault).
Arguments Ok {A} a.
Arguments Err {A} f.

(** *** OpaqueStorage *)

(** The [OpaqueStorage] objects alive, each with its [storage] field
    ([None] is the null pointer), and the blocks the C heap holds. *)
Record Heap : Type := mkHeap {
  storages : gmap nat (option nat);
  liveBlocks : gset nat
}.

Definition emptyHeap : Heap := mkHeap ∅ ∅.

Definition sizeofPointer : nat := 8.

Section Allocator.
(** [posix_memalign], on the blocks allocated so far: the block it finds
    for an alignment and a size, if any. *)
Variable posix_memalign : gset nat -> nat -> nat -> option nat.

(** [opaqueAlloc]: [posix_memalign] is handed an alignment of at least
    the size of a pointer; on failure [r] stays null, and the result code
    is dropped. *)
Definition opaqueAlloc (live : gset nat) (size align : nat) : option nat :=
  let align := if align <? sizeofPointer then sizeofPointer else align in
  let r := posix_memalign live align size in
  r.

(** [opaqueFree]: [free(p)]. *)
Definition opaqueFree (p : nat) (live : gset nat) : Result (gset nat) :=
  if decide (p ∈ live) then Ok (live ∖ {[p]}) else Err InvalidFree.

(** [OpaqueStorage()]. *)
Definition constructDefault (this : nat) (h : Heap) : Result Heap :=
  match storages h !! this with
  | Some _ => Err NoSuchObject
  | None => Ok (mkHeap (<[this := None]> (storages h)) (liveBlocks h))
  end.

(** [OpaqueStorage(size, alignment)]. *)
Definition constructAllocated (this size alignment : nat) (h : Heap)
  : Result Heap :=
  match storages h !! this with
  | Some _ => Err NoSuchObject
  | None =>
      let storage := opaqueAlloc (liveBlocks h) size alignment in
      Ok (mkHeap (<[this := storage]> (storages h))
                 (match storage with
                  | Some p => {[p]} ∪ liveBlocks h
                  | None => liveBlocks h
                  end))
  end.

(** [OpaqueStorage(OpaqueStorage &&other)]. *)
Definition constructMoved (this other : nat) (h : Heap) : Result Heap :=
  match storages h !! this, storages h !! other with
  | None, Some otherStorage =>
      Ok (mkHeap (<[other := None]> (<[this := otherStorage]> (storages h)))
                 (liveBlocks h))
  | _, _ => Err NoSuchObject
  end.

(** [~OpaqueStorage()]. *)
Definition destroy (this : nat) (h : Heap) : Result Heap :=
  match storages h !! this with
  | None => Err NoSuchObject
  | Some None => Ok (mkHeap (delete this (storages h)) (liveBlocks h))
  | Some (Some p) =>
      match opaqueFree p (liveBlocks h) with
      | Ok live => Ok (mkHeap (delete this (storages h)) live)
      | Err f => Err f
      end
  end.

(** [operator=(OpaqueStorage &&other)]: the three assignments, in order. *)
Definition moveAssign (this other : nat) (h : Heap) : Result Heap :=
  match storages h !! this with
  | None => Err NoSuchObject
  | Some temp =>
      match storages h !! other with
      | None => Err NoSuchObject
      | Some otherStorage =>
          let s1 := <[this := otherStorage]> (storages h) in
          let s2 := <[other := temp]> s1 in
          Ok (mkHeap s2 (liveBlocks h))
      end
  end.

(** [getOpaquePointer()]. *)
Definition getOpaquePointer (this : nat) (h : Heap) : option (option nat) :=
  storages h !! this.

(** The operations of the class, and a program that performs some of
    them one after the other. *)
Inductive Operation : Type :=
| ConstructDefault (this : nat)
| ConstructAllocated (this size alignment : nat)
| ConstructMoved (this other : nat)
| MoveAssign (this other : nat)
| Destroy (this : nat).

Definition perform (op : Operation) (h : Heap) : Result Heap :=
  match op with
  | ConstructDefault this => constructDefault this h
  | ConstructAllocated this size alignment =>
      constructAllocated this size alignment h
  | ConstructMoved this other => constructMoved this other h
  | MoveAssign this other => moveAssign this other h
  | Destroy this => destroy this h
  end.

Fixpoint performAll (ops : list Operation) (h : Heap) : Result Heap :=
  match ops with
  | [] => Ok h
  | op :: rest =>
      match perform op h with
      | Ok h' => performAll rest h'
      | Err f => Err f
      end
  end.

(** An allocator never hands out a block that is still allocated. *)
Definition handsOutFreshBlocks : Prop :=
  forall live align size p, posix_memalign live align size = Some p -> p ∉ live.
End Allocator.

Definition owns (h : Heap) (this p : nat) : Prop :=
  storages h !! this = Some (Some p).

(** Every storage is an allocated block, no two objects have the same
    block, and every allocated block is the storage of an object. *)
Definition uniquelyOwned (h : Heap) : Prop :=
  (forall this p, owns h this p -> p ∈ liveBlocks h) /\
  (forall this other p, owns h this p -> owns h other p -> this = other) /\
  (forall p, p ∈ liveBlocks h -> exists this, owns h this p).

(** *** RefCountedClass and Error *)

(** The calls into the Swift runtime. *)
Inductive RuntimeCall : Type :=
| swift_retain (p : nat)
| swift_release (p : nat)
| swift_errorRetain (p : nat)
| swift_errorRelease (p : nat).

(** The [RefCountedClass] objects alive, each with its [_opaquePointer]. *)
Abbreviation Handles := (gmap nat nat) (only parsing).

(** [RefCountedClass(void *ptr)]. *)
Definition constructFromPointer (this ptr : nat) (objs : Handles)
  : Result (Handles * list RuntimeCall) :=
  match objs !! this with
  | Some _ => Err NoSuchObject
  | None => Ok (<[this := ptr]> objs, [])
  end.

(** [RefCountedClass(const RefCountedClass &other)]. *)
Definition copyConstruct (this other : nat) (objs : Handles)
  : Result (Handles * list RuntimeCall) :=
  match objs !! this, objs !! other with
  | None, Some otherPointer =>
      Ok (<[this := otherPointer]> objs, [swift_retain otherPointer])
  | _, _ => Err NoSuchObject
  end.

(** [operator=(const RefCountedClass &other)]. *)
Definition copyAssign (this other : nat) (objs : Handles)
  : Result (Handles * list RuntimeCall) :=
  match objs !! this, objs !! other with
  | Some _opaquePointer, Some otherPointer =>
      Ok (<[this := otherPointer]> objs,
          [swift_retain otherPointer; swift_release _opaquePointer])
  | _, _ => Err NoSuchObject
  end.

(** [RefCountedClass(RefCountedClass &&)]. *)
Definition moveConstruct (this other : nat) (objs : Handles)
  : Result (Handles * list RuntimeCall) :=
  Err Aborted.

(** [~RefCountedClass()]. *)
Definition destroyHandle (this : nat) (objs : Handles)
  : Result (Handles * list RuntimeCall) :=
  match objs !! this with
  | Some _opaquePointer => Ok (delete this objs, [swift_release _opaquePointer])
  | None => Err NoSuchObject
  end.

Inductive HandleOperation : Type :=
| ConstructFromPointer (this ptr : nat)
| CopyConstruct (this other : nat)
| CopyAssign (this other : nat)
| MoveConstruct (this other : nat)
| DestroyHandle (this : nat).

Definition performOnHandles (op : HandleOperation) (objs : Handles)
  : Result (Handles * list RuntimeCall) :=
  match op with
  | ConstructFromPointer this ptr => constructFromPointer this ptr objs
  | CopyConstruct this other => copyConstruct this other objs
  | CopyAssign this other => copyAssign this other objs
  | MoveConstruct this other => moveConstruct this other objs
  | DestroyHandle this => destroyHandle this objs
  end.

Fixpoint performAllOnHandles (ops : list HandleOperation) (objs : Handles)
  : Result (Handles * list RuntimeCall) :=
  match ops with
  | [] => Ok (objs, [])
  | op :: rest =>
      match performOnHandles op objs with
      | Ok (objs', calls) =>
          match performAllOnHandles rest objs' with
          | Ok (objs'', calls') => Ok (objs'', calls ++ calls')
          | Err f => Err f
          end
      | Err f => Err f
      end
  end.

(** The [Error] objects alive, each with its [opaqueValue] ([None] is
    the null pointer). *)
Abbreviation Errors := (gmap nat (option nat)) (only parsing).

(** [Error()]. *)
Definition constructEmptyError (this : nat) (errs : Errors)
  : Result (Errors * list RuntimeCall) :=
  match errs !! this with
  | Some _ => Err NoSuchObject
  | None => Ok (<[this := None]> errs, [])
  end.

(** [Error(void *swiftError)]. *)
Definition constructError (this swiftError : nat) (errs : Errors)
  : Result (Errors * list RuntimeCall) :=
  match errs !! this with
  | Some _ => Err NoSuchObject
  | None => Ok (<[this := Some swiftError]> errs, [])
  end.

(** [~Error()]. *)
Definition destroyError (this : nat) (errs : Errors)
  : Result (Errors * list RuntimeCall) :=
  match errs !! this with
  | Some (Some opaqueValue) =>
      Ok (delete this errs, [swift_errorRelease opaqueValue])
  | Some None => Ok (delete this errs, [])
  | None => Err NoSuchObject
  end.

(** [Error(Error &&other)]. *)
Definition moveConstructError (this other : nat) (errs : Errors)
  : Result (Errors * list RuntimeCall) :=
  match errs !! this, errs !! other with
  | None, Some otherValue =>
      Ok (<[other := None]> (<[this := otherValue]> errs), [])
  | _, _ => Err NoSuchObject
  end.

(** [Error(const Error &other)]. *)
Definition copyConstructError (this other : nat) (errs : Errors)
  : Result (Errors * list RuntimeCall) :=
  match errs !! this, errs !! other with
  | None, Some otherValue =>
      Ok (<[this := otherValue]> errs,
          match otherValue with
          | Some p => [swift_errorRetain p]
          | None => []
          end)
  | _, _ => Err NoSuchObject
  end.

(** [getPointerToOpaquePointer()]. *)
Definition getPointerToOpaquePointer (this : nat) (errs : Errors)
  : option (option nat) :=
  errs !! this.

Inductive ErrorOperation : Type :=
| ConstructEmptyError (this : nat)
| ConstructError (this swiftError : nat)
| MoveConstructError (this other : nat)
| CopyConstructError (this other : nat)
| DestroyError (this : nat).

Definition performOnErrors (op : ErrorOperation) (errs : Errors)
  : Result (Errors * list RuntimeCall) :=
  match op with
  | ConstructEmptyError this => constructEmptyError this errs
  | ConstructError this swiftError => constructError this swiftError errs
  | MoveConstructError this other => moveConstructError this other errs
  | CopyConstructError this other => copyConstructError this other errs
  | DestroyError this => destroyError this errs
  end.

Fixpoint performAllOnErrors (ops : list ErrorOperation) (errs : Errors)
  : Result (Errors * list RuntimeCall) :=
  match ops with
  | [] => Ok (errs, [])
  | op :: rest =>
      match performOnErrors op errs with
      | Ok (errs', calls) =>
          match performAllOnErrors rest errs' with
          | Ok (errs'', calls') => Ok (errs'', calls ++ calls')
          | Err f => Err f
          end
      | Err f => Err f
      end
  end.

(** The number of objects whose field satisfies [P]. *)
Definition holding {V} (P : V -> Prop) `{!forall v, Decision (P v)}
    (objs : gmap nat V) : nat :=
  size (filter (fun entry => P entry.2) objs).

(** The handles, and the errors, that hold the Swift object [p]. *)
Definition handlesOf (p : nat) (objs : Handles) : nat :=
  holding (fun q => q = p) objs.

Definition errorsOf (p : nat) (errs : Errors) : nat :=
  holding (fun value => value = Some p) errs.

(** The references to [p] a list of runtime calls takes, less the ones
    it gives up. *)
Definition strongBalance (p : nat) (calls : list RuntimeCall) : Z :=
  foldr (fun call rest =>
           match call with
           | swift_retain q => if decide (q = p) then 1 else 0
           | swift_release q => if decide (q = p) then -1 else 0
           | _ => 0
           end + rest)%Z 0%Z calls.

Definition errorBalance (p : nat) (calls : list RuntimeCall) : Z :=
  foldr (fun call rest =>
           match call with
           | swift_errorRetain q => if decide (q = p) then 1 else 0
           | swift_errorRelease q => if decide (q = p) then -1 else 0
           | _ => 0
           end + rest)%Z 0%Z calls.

(** The references to [p] the program hands to new objects: the handles
    constructed from the pointer [p], the errors constructed from it. *)
Definition adoptsHandle (p : nat) (op : HandleOperation) : bool :=
  match op with
  | ConstructFromPointer _ ptr => bool_decide (ptr = p)
  | _ => false
  end.

Definition adoptedHandles (p : nat) (ops : list HandleOperation) : nat :=
  length (filter (fun op => adoptsHandle p op = true) ops).

Definition adoptsError (p : nat) (op : ErrorOperation) : bool :=
  match op with
  | ConstructError _ swiftError => bool_decide (swiftError = p)
  | _ => false
  end.

Definition adoptedErrors (p : nat) (ops : list ErrorOperation) : nat :=
  length (filter (fun op => adoptsError p op = true) ops).

End CxxInterop.

(** ** Concrete inputs used by the further examples *)

Module FurtherExamples.
Import Examples.

(** A module without anything constant-required: a global with opaque
    operands, a global without a declaration, a local binding, a call
    that passes one operand for the two parameters of its callee, and a
    call without a resolved callee. *)
Definition plainCalleeDecl : FuncDecl :=
  mkFuncDecl [mkVarDecl false 10 10; mkVarDecl false 11 11].
Definition plainCalleeFn : SILFunction :=
  mkSILFunction 21 (Some plainCalleeDecl) [].

Definition plainModule : SILModule :=
  mkSILModule
    [mkSILGlobalVariable 4 (Some (mkVarDecl false 70 70))
       (Some (StructInst [8; 9]));
     mkSILGlobalVariable 5 None None]
    [mkSILFunction 41 None
       [[DebugValueInst (Some (mkVarDecl false 62 63)) 9;
         ApplyInst (Some plainCalleeFn) [8] plainCallLoc;
         ApplyInst None [] plainCallLoc]]].

(** A module all of whose calls can be walked to their end: the callee
    with a constant-required second parameter is called from a location
    without a call expression, and the call with a call expression
    behind its location has a callee whose first parameter only is
    constant-required. *)
Definition firstConstDecl : FuncDecl :=
  mkFuncDecl [mkVarDecl true 12 12; mkVarDecl false 13 13].
Definition firstConstFn : SILFunction :=
  mkSILFunction 22 (Some firstConstDecl) [].

Definition completeCallerFn : SILFunction :=
  mkSILFunction 42 None
    [[DebugValueInst (Some (mkVarDecl true 60 61)) 9];
     [ApplyInst (Some calleeFn) fullCallArgs plainCallLoc;
      ApplyInst (Some firstConstFn) [8; 0] exprCallLoc;
      ApplyInst None [8; 9] plainCallLoc]].

Definition completeModule : SILModule :=
  mkSILModule [twoOpaqueOperands; lazyGlobal]
    [addressor; initializerWithStore; completeCallerFn].

(** An evaluator that folds every value. *)
Definition foldingEvaluator : ConstExprEvaluator :=
  {| ConstExprFunctionState := unit;
     getConstantValue := fun _ s => (Integer 0, s) |}.
End FurtherExamples.

Module MigrationExamples.
Import Migration.

Definition nonisolated : ActorIsolation := mkActorIsolation true false.

(** [nonisolated func f() async], and the warning for it. *)
Definition asyncFunction : ValueDecl :=
  mkValueDecl AbstractFunctionDecl false true false true 200 199.
Definition asyncFunctionTarget : AsyncCallerExecutionMigrationTarget :=
  DeclTarget (Some asyncFunction) nonisolated.
Definition asyncFunctionWarning : MigrationDiagnostic :=
  mkMigrationDiagnostic 200
    attr_execution_nonisolated_behavior_will_change_decl
    (fixItInsertAttribute 199).

(** [var x: Int { get async { ... } }], and the warning for it: at the
    getter, with the attribute on the property. *)
Definition asyncProperty : ValueDecl :=
  mkValueDecl (AbstractStorageDecl (Some (mkAccessorDecl 210)) None)
    false true false true 205 204.
Definition asyncPropertyTarget : AsyncCallerExecutionMigrationTarget :=
  DeclTarget (Some asyncProperty) nonisolated.
Definition asyncPropertyWarning : MigrationDiagnostic :=
  mkMigrationDiagnostic 210
    attr_execution_nonisolated_behavior_will_change_decl
    (fixItInsertAttribute 204).

(** An async storage declaration that has a setter as well. *)
Definition settableStorage : ValueDecl :=
  mkValueDecl
    (AbstractStorageDecl (Some (mkAccessorDecl 220)) (Some (mkAccessorDecl 221)))
    false true false true 215 214.
End MigrationExamples.

Module CxxInteropExamples.
Import CxxInterop.

(** An allocator that never fails and never reuses a block. *)
Definition bumpAllocator (live : gset nat) (align size : nat) : option nat :=
  Some (fresh live).

(** Allocate, swap into a default-constructed object, move out of it,
    and destroy all three objects. *)
Definition storageProgram : list Operation :=
  [ConstructAllocated 0 16 4; ConstructDefault 1; MoveAssign 1 0;
   ConstructMoved 2 1; Destroy 0; Destroy 1; Destroy 2].

Definition oneStorage : Heap := mkHeap {[ 0 := Some 5; 1 := None ]} {[ 5 ]}.
Definition swappedStorage : Heap := mkHeap {[ 0 := None; 1 := Some 5 ]} {[ 5 ]}.
Definition movedStorage : Heap :=
  mkHeap {[ 0 := None; 1 := None; 2 := Some 5 ]} {[ 5 ]}.

(** Adopt a reference, copy the handle, assign the copy to itself, and
    destroy the first handle. *)
Definition handleProgram : list HandleOperation :=
  [ConstructFromPointer 0 7; CopyConstruct 1 0; CopyAssign 1 1;
   DestroyHandle 0].
Definition handleCalls : list RuntimeCall :=
  [swift_retain 7; swift_retain 7; swift_release 7; swift_release 7].

(** Adopt an error, copy it, move the copy, and destroy the moved-from
    error and the original. *)
Definition errorProgram : list ErrorOperation :=
  [ConstructError 0 7; CopyConstructError 1 0; MoveConstructError 2 1;
   ConstructEmptyError 3; DestroyError 1; DestroyError 0; DestroyError 3].
Definition errorCalls : list RuntimeCall :=
  [swift_errorRetain 7; swift_errorRelease 7].
End CxxInteropExamples.

(** ** Facts about the pass *)

Section PassFacts.
Context `{CE : ConstExprEvaluator} `{GU : GlobalInitUtils}.

(** *** The monad and its loops *)

Lemma bind_ret_l {A B} (a : A) (k : A -> Pass B) s :
  bind (ret a) k s = k a s.
Proof. unfold bind, ret. by destruct (k a s) as [[o d] s']. Qed.

Lemma bind_assoc {A B C} (m : Pass A) (k : A -> Pass B) (h : B -> Pass C) s :
  bind (bind m k) h s = bind m (fun a => bind (k a) h) s.
Proof.
  unfold bind. destruct (m s) as [[[a|f] d1] s1]; [|done].
  destruct (k a s1) as [[[b|f] d2] s2]; [|done].
  destruct (h b s2) as [[o d3] s3]. by rewrite (assoc_L (++)).
Qed.

Lemma bind_ext {A B} (m m' : Pass A) (k k' : A -> Pass B) s :
  (forall s0, m s0 = m' s0) -> (forall a s0, k a s0 = k' a s0) ->
  bind m k s = bind m' k' s.
Proof.
  intros Hm Hk. unfold bind. rewrite Hm.
  destruct (m' s) as [[[a|f] d1] s1]; [|done]. by rewrite Hk.
Qed.

Lemma forEach_app {A} (xs ys : list A) body s :
  forEach (xs ++ ys) body s = (forEach xs body;; forEach ys body) s.
Proof.
  revert s. induction xs as [|x xs IH]; intros s; simpl.
  - by rewrite bind_ret_l.
  - rewrite bind_assoc. by apply bind_ext.
Qed.

Lemma evaluateAll_length vs s : length (evaluateAll vs s).1 = length vs.
Proof.
  revert s. induction vs as [|v vs IH]; intros s; simpl; [done|].
  destruct (getConstantValue v s) as [r s1].
  specialize (IH s1). destruct (evaluateAll vs s1) as [rs s2].
  simpl in *. by rewrite IH.
Qed.

Lemma evaluateAll_app us vs s :
  evaluateAll (us ++ vs) s =
  let '(rs1, s1) := evaluateAll us s in
  let '(rs2, s2) := evaluateAll vs s1 in
  (rs1 ++ rs2, s2).
Proof.
  revert s. induction us as [|u us IH]; intros s; simpl.
  - by destruct (evaluateAll vs s).
  - destruct (getConstantValue u s) as [r s1]. rewrite IH.
    destruct (evaluateAll us s1) as [rs1 s2].
    by destruct (evaluateAll vs s2).
Qed.

Lemma reports_app {X} (report : X -> SymbolicValue -> list Diagnostic)
    xs ys rs1 rs2 :
  length xs = length rs1 ->
  reports report (xs ++ ys) (rs1 ++ rs2) =
  reports report xs rs1 ++ reports report ys rs2.
Proof.
  intros Hlen. unfold reports.
  rewrite zip_with_app by done. by rewrite flat_map_app.
Qed.

Lemma reportAll_app {X} (report : X -> SymbolicValue -> list Diagnostic)
    qs1 qs2 s :
  reportAll report (qs1 ++ qs2) s =
  (reportAll report qs1;; reportAll report qs2) s.
Proof.
  unfold reportAll, bind. rewrite !fmap_app, evaluateAll_app.
  pose proof (evaluateAll_length qs1.*2 s) as Hlen.
  destruct (evaluateAll qs1.*2 s) as [rs1 s1].
  destruct (evaluateAll qs2.*2 s1) as [rs2 s2].
  simpl in Hlen. rewrite length_fmap in Hlen.
  rewrite reports_app; [done|]. by rewrite length_fmap.
Qed.

Lemma forEach_reportAll {A X} (report : X -> SymbolicValue -> list Diagnostic)
    (ext : A -> list (X * SILValue)) (xs : list A) body :
  (forall x s, x ∈ xs -> body x s = reportAll report (ext x) s) ->
  forall s, forEach xs body s = reportAll report (flat_map ext xs) s.
Proof.
  induction xs as [|x xs IH]; intros Hbody s; simpl; [done|].
  rewrite reportAll_app. apply bind_ext.
  - intros s0. apply Hbody. by left.
  - intros _ s0. apply IH. intros y s1 Hy. apply Hbody. by right.
Qed.

Lemma forEach_seq {A} (xs : list A) body (g : A -> Pass unit) :
  forall k,
    (forall i x s, xs !! i = Some x -> body (k + i) s = g x s) ->
    forall s, forEach (seq k (length xs)) body s = forEach xs g s.
Proof.
  induction xs as [|x xs IH]; intros k Hbody s; simpl; [done|].
  apply bind_ext.
  - intros s0. rewrite <- (Nat.add_0_r k). by apply Hbody.
  - intros _ s0. apply IH. intros i y s1 Hy.
    replace (S k + i) with (k + S i) by lia. by apply Hbody.
Qed.

Lemma reportAll_one {X} (report : X -> SymbolicValue -> list Diagnostic) x v s :
  reportAll report [(x, v)] s =
  let '(r, s') := getConstantValue v s in (Done tt, report x r, s').
Proof.
  unfold reportAll, reports. simpl.
  destruct (getConstantValue v s) as [r s']. simpl.
  by rewrite (right_id_L [] (++)).
Qed.

Lemma reports_replicate {X} (report : X -> SymbolicValue -> list Diagnostic)
    (bad : SymbolicValue -> bool) (d : Diagnostic) xs rs :
  length xs = length rs ->
  (forall x r, x ∈ xs -> report x r = if bad r then [d] else []) ->
  reports report xs rs = replicate (length (filter (fun r => bad r = true) rs)) d.
Proof.
  unfold reports. revert rs.
  induction xs as [|x xs IH]; intros [|r rs] Hlen Hrep; simplify_eq/=; [done|].
  rewrite Hrep by left. rewrite filter_cons.
  rewrite IH; [|done|intros; apply Hrep; by right].
  destruct (bad r); by case_decide.
Qed.

Lemma flat_map_singleton {A B} (f : A -> B) (xs : list A) :
  flat_map (fun x => [f x]) xs = f <$> xs.
Proof. induction xs as [|x xs IH]; simpl; [done|]. by rewrite IH. Qed.

(** *** Statically initialized globals *)

(** C9: a constant-required global whose recorded static initializer is
    not a [StructInst] passes silently: no diagnostic is emitted and the
    evaluator is not asked anything. *)
Theorem static_initializer_not_a_struct_is_silent G Decl I s :
  getStaticInitializerValue G = Some I ->
  isaStructInst I = false ->
  verifyStaticallyInitializedGlobal G Decl s = (Done tt, [], s).
Proof.
  intros HI Hnot. unfold verifyStaticallyInitializedGlobal. rewrite HI.
  by destruct I.
Qed.

(** *** Calls that are not looked at *)

(** C10: a call whose callee cannot be resolved statically, or whose
    resolved callee has no [FuncDecl] behind its location, gets no
    diagnostic and no evaluation, whatever its arguments are. *)
Theorem unresolved_callee_is_silent args loc s :
  verifyCallArgumentsOf None args loc s = (Done tt, [], s) /\
  forall name blocks,
    verifyCallArgumentsOf (Some (mkSILFunction name None blocks)) args loc s
    = (Done tt, [], s).
Proof. done. Qed.

(** *** Statically initialized globals, operand by operand *)

(** C2, as amended: for a constant-required global whose static
    initializer is a [StructInst], every operand is evaluated, in order,
    and one [require_const_initializer_for_const] diagnostic is emitted
    at the declaration's location for each operand whose value does not
    contain only constants: one diagnostic per offending operand, and
    the walk does not stop at the first. *)
Theorem static_initializer_reports_each_offending_operand G Decl operands s :
  getStaticInitializerValue G = Some (StructInst operands) ->
  verifyStaticallyInitializedGlobal G Decl s =
  let '(answers, s') := evaluateAll operands s in
  (Done tt,
   replicate
     (length (filter (fun r => negb (containsOnlyConstants r) = true) answers))
     (mkDiagnostic (getLoc Decl) require_const_initializer_for_const),
   s').
Proof.
  intros HI. unfold verifyStaticallyInitializedGlobal. rewrite HI.
  rewrite (forEach_reportAll (fun _ : unit => initializerReport Decl)
             (fun SIO => [(tt, SIO)])).
  - unfold reportAll. rewrite (flat_map_singleton (pair tt)).
    rewrite <- !list_fmap_compose, list_fmap_id.
    pose proof (evaluateAll_length operands s) as Hlen.
    destruct (evaluateAll operands s) as [answers s']. simpl in Hlen.
    f_equal. f_equal.
    apply (reports_replicate _ (fun r => negb (containsOnlyConstants r))).
    + by rewrite length_fmap.
    + intros _ r _. unfold initializerReport.
      by destruct (containsOnlyConstants r).
  - intros SIO s0 _. rewrite reportAll_one. unfold bind, constantValueOf.
    destruct (getConstantValue SIO s0) as [r s1]. unfold initializerReport.
    by destruct (containsOnlyConstants r).
Qed.

(** *** Local bindings *)

Lemma verifyLocal_reportAll Decl operand s :
  verifyLocal Decl operand s =
  reportAll bindingReport (constRequiredBinding (DebugValueInst Decl operand)) s.
Proof.
  unfold verifyLocal, constRequiredBinding.
  destruct Decl as [D|]; [|done]. destruct (isConstVal D); [|done].
  rewrite reportAll_one. unfold bind, constantValueOf. simpl.
  destruct (getConstantValue operand s) as [r s1]. unfold bindingReport.
  by destruct (isConstant r).
Qed.

(** C5: a debug binding without a declaration, or whose declaration is
    not constant-required, produces no diagnostic (and no evaluation); a
    binding of a constant-required declaration has its operand evaluated
    and gets one [require_const_arg_for_parameter] diagnostic at the
    declaration's start location exactly when the answer is not constant;
    and [verifyLocals] does this for the constant-required bindings of
    every block of every function, in layout order. *)
Theorem local_bindings_report_exactly_the_unknown :
  (forall operand s, verifyLocal None operand s = (Done tt, [], s)) /\
  (forall loc start operand s,
      verifyLocal (Some (mkVarDecl false loc start)) operand s = (Done tt, [], s)) /\
  (forall loc start operand s,
      verifyLocal (Some (mkVarDecl true loc start)) operand s =
      let '(r, s') := getConstantValue operand s in
      (Done tt,
       if isConstant r then []
       else [mkDiagnostic start require_const_arg_for_parameter],
       s')) /\
  (forall M s,
      verifyLocals M s =
      let bindings := constRequiredBindings M in
      let '(answers, s') := evaluateAll bindings.*2 s in
      (Done tt, reports bindingReport bindings.*1 answers, s')).
Proof.
  split; [done|]. split; [done|]. split.
  - intros loc start operand s. rewrite verifyLocal_reportAll. simpl.
    rewrite reportAll_one. by destruct (getConstantValue operand s).
  - intros M s. unfold verifyLocals, constRequiredBindings.
    apply (forEach_reportAll bindingReport). intros F s1 _.
    apply (forEach_reportAll bindingReport). intros BB s2 _.
    apply (forEach_reportAll bindingReport). intros I s3 _.
    destruct I; try done. apply verifyLocal_reportAll.
Qed.

(** *** Call arguments *)

Lemma argumentLocations_length ApplyLoc params locs :
  argumentLocations ApplyLoc params = Some locs -> length locs = length params.
Proof.
  unfold argumentLocations. destruct (getAsApplyExpr ApplyLoc) as [e|].
  - destruct (existsb isConstVal (drop 1 params)); [done|].
    intros [= <-]. apply length_replicate.
  - intros [= <-]. apply length_replicate.
Qed.

Lemma existsb_lookup {A} (f : A -> bool) (xs : list A) i x :
  xs !! i = Some x -> f x = true -> existsb f xs = true.
Proof.
  intros Hx Hf. apply existsb_exists. exists x. split; [|done].
  apply list_elem_of_In. by eapply list_elem_of_lookup_2.
Qed.

Lemma argLocation_ret ApplyLoc params locs i p l s :
  argumentLocations ApplyLoc params = Some locs ->
  params !! i = Some p -> isConstVal p = true ->
  locs !! i = Some l ->
  argLocation ApplyLoc i s = (Done l, [], s).
Proof.
  unfold argumentLocations, argLocation, subscript.
  destruct (getAsApplyExpr ApplyLoc) as [e|].
  - destruct (existsb isConstVal (drop 1 params)) eqn:Hlater; [done|].
    intros [= <-] Hp Hconst Hl. apply lookup_replicate in Hl as [-> _].
    destruct i as [|i]; [done|].
    rewrite (existsb_lookup isConstVal (drop 1 params) i p) in Hlater; [done| |done].
    by rewrite lookup_drop.
  - intros [= <-] _ _ Hl. by apply lookup_replicate in Hl as [-> _].
Qed.

Lemma verifyCallArgumentAt_reportAll params args ApplyLoc locs i p a l s :
  argumentLocations ApplyLoc params = Some locs ->
  params !! i = Some p -> args !! i = Some a -> locs !! i = Some l ->
  verifyCallArgumentAt params args ApplyLoc i s =
  reportAll argumentReport (constRequiredSite (p, (a, l))) s.
Proof.
  intros Hlocs Hp Ha Hl. unfold verifyCallArgumentAt, subscript.
  rewrite Ha, Hp, !bind_ret_l. simpl. destruct (isConstVal p) eqn:Hconst; [|done].
  rewrite reportAll_one. unfold bind at 1. unfold constantValueOf.
  destruct (getConstantValue a s) as [r s1]. unfold argumentReport.
  destruct (isConstant r); simpl; [done|].
  unfold bind. by rewrite (argLocation_ret _ _ _ _ _ _ _ Hlocs Hp Hconst Hl).
Qed.

Lemma constRequiredSites_none params args locs :
  hasConstParameter params = false -> constRequiredSites params args locs = [].
Proof.
  unfold hasConstParameter, constRequiredSites.
  revert args locs. induction params as [|p ps IH]; intros args locs; [done|].
  simpl. intros [Hp Hps]%orb_false_elim.
  destruct args as [|a args]; [done|]. destruct locs as [|l locs]; [done|].
  simpl. rewrite Hp. by apply IH.
Qed.

Lemma forEach_faultsOnlyWith {A} f (xs : list A) body :
  (forall x, faultsOnlyWith f (body x)) -> faultsOnlyWith f (forEach xs body).
Proof.
  intros Hbody. induction xs as [|x xs IH]; intros s; simpl; [done|].
  unfold bind. specialize (Hbody x s).
  destruct (body x s) as [[[[]|f'] d1] s1]; [|done].
  specialize (IH s1). by destruct (forEach xs body s1) as [[[[]|f'] d2] s2].
Qed.

Lemma verifyCallArgumentAt_faultsOnlyWith params args ApplyLoc i :
  faultsOnlyWith IndexOutOfBounds (verifyCallArgumentAt params args ApplyLoc i).
Proof.
  intros s. unfold verifyCallArgumentAt, subscript.
  destruct (args !! i) as [a|]; [|done].
  destruct (params !! i) as [p|]; [|done].
  rewrite !bind_ret_l. destruct (isConstVal p); [|done].
  unfold bind at 1. unfold constantValueOf.
  destruct (getConstantValue a s) as [r s1]. simpl.
  destruct (isConstant r); simpl; [done|].
  unfold bind, argLocation, subscript.
  destruct (getAsApplyExpr ApplyLoc) as [e|]; simpl; [|done].
  by destruct ([getArgs e] !! i).
Qed.

(** C1, what the code does instead: when the resolved callee has a
    constant-required parameter and the call has fewer operands than the
    callee has parameters, the loop subscripts the operand list at an
    index it does not have; the index is not skipped, the pass stops on
    the out-of-range access. *)
Theorem short_argument_list_is_read_out_of_bounds
    CalleeFn CalleeDecl args ApplyLoc s :
  getAsFuncDecl CalleeFn = Some CalleeDecl ->
  hasConstParameter (getParameters CalleeDecl) = true ->
  length args < length (getParameters CalleeDecl) ->
  outcomeOf (verifyCallArgumentsOf (Some CalleeFn) args ApplyLoc s)
  = Crash IndexOutOfBounds.
Proof.
  intros HD Hconst Hshort. unfold verifyCallArgumentsOf.
  rewrite HD, Hconst. set (params := getParameters CalleeDecl) in *.
  replace (length params)
    with (length args + S (length params - S (length args))) by lia.
  rewrite seq_app, forEach_app. simpl. unfold bind at 1.
  pose proof (forEach_faultsOnlyWith IndexOutOfBounds (seq 0 (length args))
              (verifyCallArgumentAt params args ApplyLoc)
              (verifyCallArgumentAt_faultsOnlyWith params args ApplyLoc) s)
    as Hfirst.
  destruct (forEach (seq 0 (length args)) _ s) as [[[[]|f'] d1] s1];
    simpl in *; [|by subst].
  unfold bind, verifyCallArgumentAt, subscript.
  by rewrite (lookup_ge_None_2 args (length args)).
Qed.

Lemma diagnosticsOf_bind {A B} (m : Pass A) (k : A -> Pass B) s :
  diagnosticsOf (bind m k s) =
  diagnosticsOf (m s) ++
  match outcomeOf (m s) with
  | Done a => diagnosticsOf (k a (stateOf (m s)))
  | Crash _ => []
  end.
Proof.
  unfold bind, diagnosticsOf, outcomeOf, stateOf.
  destruct (m s) as [[[a|f] d1] s1]; simpl; [|by rewrite (right_id_L [] (++))].
  by destruct (k a s1) as [[o d2] s2].
Qed.

Lemma forEach_silent {A} (xs : list A) body :
  (forall x s, x ∈ xs -> diagnosticsOf (body x s) = []) ->
  forall s, diagnosticsOf (forEach xs body s) = [].
Proof.
  induction xs as [|x xs IH]; intros Hbody s; simpl; [done|].
  rewrite diagnosticsOf_bind, Hbody by left. simpl.
  destruct (outcomeOf (body x s)); [|done].
  apply IH. intros y s0 Hy. apply Hbody. by right.
Qed.

(** With a call expression behind the location of the call, the check
    reports at index 0 only, and there at the location of the argument
    list. *)
Lemma verifyCallArgumentAt_expr_diagnostics
    params args ApplyLoc ApplyExprNode i s :
  getAsApplyExpr ApplyLoc = Some ApplyExprNode ->
  let emitted := diagnosticsOf (verifyCallArgumentAt params args ApplyLoc i s) in
  emitted = [] \/
  (i = 0 /\
   emitted = [mkDiagnostic (getArgumentListLoc (getArgs ApplyExprNode))
                require_const_arg_for_parameter]).
Proof.
  intros He emitted.
  assert (emitted = diagnosticsOf (verifyCallArgumentAt params args ApplyLoc i s))
    as Hemitted by done.
  clearbody emitted. revert Hemitted. unfold verifyCallArgumentAt, subscript.
  destruct (args !! i) as [a|]; [|by left].
  destruct (params !! i) as [p|]; [|by left].
  rewrite !bind_ret_l. destruct (isConstVal p); [|by left].
  unfold bind at 1. unfold constantValueOf.
  destruct (getConstantValue a s) as [r s1]. simpl.
  destruct (isConstant r); simpl; [by left|].
  unfold bind, argLocation, subscript. rewrite He.
  destruct i as [|i]; simpl; intros ->; [by right|by left].
Qed.

Lemma verifyCallArgumentAt_reads_past
    params args ApplyLoc ApplyExprNode i p a s :
  getAsApplyExpr ApplyLoc = Some ApplyExprNode ->
  0 < i ->
  params !! i = Some p -> isConstVal p = true -> args !! i = Some a ->
  isConstant (getConstantValue a s).1 = false ->
  outcomeOf (verifyCallArgumentAt params args ApplyLoc i s)
  = Crash IndexOutOfBounds.
Proof.
  intros He Hi Hp Hconst Ha Hr. unfold verifyCallArgumentAt, subscript.
  rewrite Ha, Hp, !bind_ret_l, Hconst.
  unfold bind at 1. unfold constantValueOf.
  destruct (getConstantValue a s) as [r s1]. simpl in *. rewrite Hr. simpl.
  unfold bind, argLocation, subscript. rewrite He.
  destruct i as [|i]; [lia|done].
Qed.

(** C4, what the code does instead: when the call expression is
    recoverable from the location of the call, the diagnostic is not
    placed at the argument's own location.  The code subscripts the
    pointer to the argument list with the parameter index, so for a
    constant-required parameter after the first whose argument does not
    evaluate to a constant it reads past the argument list and the pass
    stops there; the only diagnostic such a call can get is one for its
    first parameter, at the location of the argument list. *)
Theorem argument_list_is_read_past_its_end
    CalleeFn CalleeDecl args ApplyLoc ApplyExprNode i param arg s :
  getAsFuncDecl CalleeFn = Some CalleeDecl ->
  getAsApplyExpr ApplyLoc = Some ApplyExprNode ->
  0 < i ->
  getParameters CalleeDecl !! i = Some param ->
  isConstVal param = true ->
  args !! i = Some arg ->
  (forall s', isConstant (getConstantValue arg s').1 = false) ->
  let result := verifyCallArgumentsOf (Some CalleeFn) args ApplyLoc s in
  outcomeOf result = Crash IndexOutOfBounds /\
  (diagnosticsOf result = [] \/
   diagnosticsOf result =
     [mkDiagnostic (getArgumentListLoc (getArgs ApplyExprNode))
        require_const_arg_for_parameter]).
Proof.
  intros HD He Hi Hp Hconst Ha Hr. unfold verifyCallArgumentsOf.
  rewrite HD. set (params := getParameters CalleeDecl) in *.
  rewrite (existsb_lookup isConstVal params i param Hp Hconst
           : hasConstParameter params = true).
  pose proof (lookup_lt_Some _ _ _ Hp) as Hlen. split.
  - replace (length params) with (i + S (length params - S i)) by lia.
    rewrite seq_app, forEach_app. simpl. unfold bind at 1.
    pose proof (forEach_faultsOnlyWith IndexOutOfBounds (seq 0 i)
                  (verifyCallArgumentAt params args ApplyLoc)
                  (verifyCallArgumentAt_faultsOnlyWith params args ApplyLoc) s)
      as Hfirst.
    destruct (forEach (seq 0 i) _ s) as [[[[]|f'] d1] s1];
      simpl in *; [|by subst].
    unfold bind at 1.
    pose proof (verifyCallArgumentAt_reads_past params args ApplyLoc
                  ApplyExprNode i param arg s1 He Hi Hp Hconst Ha (Hr s1))
      as Hpast.
    by destruct (verifyCallArgumentAt params args ApplyLoc i s1)
      as [[[[]|f'] d2] s2]; simpl in *; simplify_eq.
  - destruct (length params) as [|n] eqn:Hn; [lia|]. simpl.
    rewrite diagnosticsOf_bind.
    assert (match outcomeOf (verifyCallArgumentAt params args ApplyLoc 0 s) with
            | Done a =>
                diagnosticsOf
                  (forEach (seq 1 n) (verifyCallArgumentAt params args ApplyLoc)
                     (stateOf (verifyCallArgumentAt params args ApplyLoc 0 s)))
            | Crash _ => []
            end = []) as ->.
    { destruct (outcomeOf _); [|done]. apply forEach_silent.
      intros j s0 [Hj _]%elem_of_seq.
      destruct (verifyCallArgumentAt_expr_diagnostics
                  params args ApplyLoc ApplyExprNode j s0 He) as [?|[? _]];
        [done|lia]. }
    rewrite (right_id_L [] (++)).
    destruct (verifyCallArgumentAt_expr_diagnostics
                params args ApplyLoc ApplyExprNode 0 s He) as [?|[_ ?]]; auto.
Qed.

(** *** Initialize-once globals *)

Lemma forEachUntil_app {A} (xs ys : list A) body s :
  forEachUntil (xs ++ ys) body s =
  (let* returned := forEachUntil xs body in
   if returned then ret true else forEachUntil ys body) s.
Proof.
  revert s. induction xs as [|x xs IH]; intros s; simpl.
  - by rewrite bind_ret_l.
  - rewrite bind_assoc. apply bind_ext; [done|].
    intros [] s0; [by rewrite bind_ret_l|apply IH].
Qed.

Lemma forEachUntil_searchConstant {A} (ext : A -> list SILValue)
    (xs : list A) body :
  (forall x s, x ∈ xs -> body x s = searchConstant (ext x) s) ->
  forall s, forEachUntil xs body s = searchConstant (flat_map ext xs) s.
Proof.
  unfold searchConstant.
  induction xs as [|x xs IH]; intros Hbody s; simpl; [done|].
  rewrite forEachUntil_app. apply bind_ext.
  - intros s0. apply Hbody. by left.
  - intros [] s0; [done|]. apply IH. intros y s1 Hy. apply Hbody. by right.
Qed.

Lemma forEachUntil_concat {A} (xss : list (list A)) body s :
  forEachUntil xss (fun xs => forEachUntil xs body) s =
  forEachUntil (concat xss) body s.
Proof.
  revert s. induction xss as [|xs xss IH]; intros s; simpl; [done|].
  rewrite forEachUntil_app. apply bind_ext; [done|].
  intros [] s0; [done|apply IH].
Qed.

Lemma searchConstant_spec vs s :
  exists s',
    searchConstant vs s =
    (Done (existsb isConstant (evaluateAll vs s).1), [], s').
Proof.
  unfold searchConstant. revert s.
  induction vs as [|v vs IH]; intros s; simpl; [by eexists|].
  rewrite bind_assoc. unfold bind at 1. unfold constantValueOf at 1.
  destruct (getConstantValue v s) as [r s1]. rewrite bind_ret_l.
  destruct (IH s1) as [s' IH']. destruct (evaluateAll vs s1) as [rs s2].
  cbn [fst existsb] in *. destruct (isConstant r); [by eexists|].
  rewrite IH'. by eexists.
Qed.

Lemma visitInitializerInstruction_searchConstant G I s :
  singleUseIsStore G I = true ->
  visitInitializerInstruction G I s = searchConstant (storedToGlobal G I) s.
Proof.
  unfold singleUseIsStore, visitInitializerInstruction, storedToGlobal.
  destruct I as [|g us| | | |]; try done.
  destruct (g =? globalName G), us as [|user [|]]; try done;
    destruct user; try done.
  intros _. unfold searchConstant. simpl. rewrite bind_assoc.
  apply bind_ext; [done|]. intros r s0. rewrite bind_ret_l.
  unfold bind, ret. by destruct (isConstant r).
Qed.

Lemma flat_map_flat_map {A B C} (f : A -> list B) (g : B -> list C) xs :
  flat_map g (flat_map f xs) = flat_map (fun x => flat_map g (f x)) xs.
Proof.
  induction xs as [|x xs IH]; simpl; [done|]. by rewrite flat_map_app, IH.
Qed.

Lemma forallb_flat_map {A B} (f : A -> list B) (p : B -> bool) xs :
  forallb p (flat_map f xs) = forallb (fun x => forallb p (f x)) xs.
Proof.
  induction xs as [|x xs IH]; simpl; [done|]. by rewrite forallb_app, IH.
Qed.


(** What the recognised shape of an initializer gives: the address of
    the variable is taken in it, and where an address has a single use
    in it, that use is a store. *)
Lemma isStaticInitializerOf_inv g InitF :
  isStaticInitializerOf g InitF = true ->
  exists BB uses,
    getBlocks InitF = [BB] /\
    filter (fun I => isaGlobalAddrInst I = true) BB = [GlobalAddrInst g uses] /\
    length (filter (fun user => isaStoreInst user = true) uses) = 1.
Proof.
  unfold isStaticInitializerOf.
  destruct (getBlocks InitF) as [|BB [|]]; try done.
  destruct (filter _ BB) as [|[|referenced uses| | | |] [|]] eqn:Haddr;
    try done.
  intros [->%Nat.eqb_eq Hstore%Nat.eqb_eq]%andb_true_iff. by exists BB, uses.
Qed.

Lemma isStaticInitializerOf_singleUseIsStore g InitF G :
  isStaticInitializerOf g InitF = true ->
  forallb (singleUseIsStore G) (instructionsOf InitF) = true.
Proof.
  intros (BB & uses & HBB & Haddr & Hstore)%isStaticInitializerOf_inv.
  unfold instructionsOf. rewrite HBB. simpl. rewrite (right_id_L [] (++)).
  apply forallb_forall. intros I HI%list_elem_of_In.
  destruct I as [|referenced [|user [|]]| | | |]; try done. simpl.
  destruct (referenced =? globalName G); [|done].
  assert (GlobalAddrInst referenced [user]
            ∈ filter (fun I => isaGlobalAddrInst I = true) BB) as Hin.
  { by apply list_elem_of_filter. }
  rewrite Haddr in Hin. apply list_elem_of_singleton in Hin as [= -> <-].
  rewrite filter_cons in Hstore. by destruct (isaStoreInst user).
Qed.


Lemma isGlobalInitOf_recognised G Fn :
  isGlobalInitOf G Fn = true ->
  exists InitF,
    findInitializer Fn = Some InitF /\
    isStaticInitializerOf (globalName G) InitF = true.
Proof.
  unfold isGlobalInitOf.
  destruct (getVariableOfGlobalInit Fn) as [g|] eqn:Hg; [|done].
  intros ->%Nat.eqb_eq. by apply getVariableOfGlobalInit_recognised.
Qed.

(** In the initializers the check walks, a single use of the address of
    the global is always a store: the assertion of the check holds. *)
Lemma recognised_singleUsesAreStores M G : singleUsesAreStores M G = true.
Proof.
  unfold singleUsesAreStores, initializersOf. rewrite forallb_flat_map.
  apply forallb_forall. intros Fn _.
  destruct (isGlobalInitOf G Fn) eqn:HG; [|done].
  destruct (isGlobalInitOf_recognised G Fn HG) as (InitF & -> & Hshape).
  simpl. rewrite andb_true_r.
  by eapply isStaticInitializerOf_singleUseIsStore.
Qed.

Lemma initializer_walk_searchConstant M G s :
  singleUsesAreStores M G = true ->
  forEachUntil (getFunctions M) (fun Fn =>
    if isGlobalInitOf G Fn then
      match findInitializer Fn with
      | Some InitF =>
          forEachUntil (getBlocks InitF) (fun BB =>
            forEachUntil BB (visitInitializerInstruction G))
      | None => ret false
      end
    else ret false) s
  = searchConstant (initializingStores M G) s.
Proof.
  unfold singleUsesAreStores, initializingStores, initializersOf.
  rewrite forallb_flat_map, flat_map_flat_map. intros Hshape.
  revert s. apply forEachUntil_searchConstant. intros Fn s0 HFn.
  rewrite forallb_forall in Hshape.
  specialize (Hshape Fn (proj1 (list_elem_of_In _ _) HFn)).
  destruct (isGlobalInitOf G Fn); [|done].
  destruct (findInitializer Fn) as [InitF|]; [|done]. simpl in *.
  rewrite (right_id_L [] (++)), andb_true_r in *.
  rewrite forEachUntil_concat. apply forEachUntil_searchConstant.
  intros I s1 HI. apply visitInitializerInstruction_searchConstant.
  rewrite forallb_forall in Hshape. apply Hshape. by apply list_elem_of_In.
Qed.

Lemma verifyInitializeOnceGlobal_done M G Decl s :
  singleUsesAreStores M G = true ->
  outcomeOf (verifyInitializeOnceGlobal M G Decl s) = Done tt.
Proof.
  intros Hshape. unfold verifyInitializeOnceGlobal, bind.
  rewrite initializer_walk_searchConstant by done.
  destruct (searchConstant_spec (initializingStores M G) s) as [s1 ->].
  by destruct (existsb _ _).
Qed.

(** C6: for an initialize-once global whose initializers use the
    address of the global, when it has a single use, in a store: the
    check ends normally; it is silent when one of the stored values, in
    the order the check meets them, evaluates to a constant, and
    otherwise (none is constant, or there is none at all) it emits
    exactly one [require_const_initializer_for_const] diagnostic at the
    declaration's location. *)
Theorem initialize_once_global_verdict M G Decl s :
  singleUsesAreStores M G = true ->
  outcomeOf (verifyInitializeOnceGlobal M G Decl s) = Done tt /\
  diagnosticsOf (verifyInitializeOnceGlobal M G Decl s) =
    if existsb isConstant (evaluateAll (initializingStores M G) s).1
    then []
    else [mkDiagnostic (getLoc Decl) require_const_initializer_for_const].
Proof.
  unfold singleUsesAreStores, initializingStores, initializersOf.
  rewrite forallb_flat_map, flat_map_flat_map. intros Hshape.
  unfold verifyInitializeOnceGlobal.
  set (stores := flat_map _ (getFunctions M)).
  assert (Hloop : forall s0,
    forEachUntil (getFunctions M) (fun Fn =>
      if isGlobalInitOf G Fn then
        match findInitializer Fn with
        | Some InitF =>
            forEachUntil (getBlocks InitF) (fun BB =>
              forEachUntil BB (visitInitializerInstruction G))
        | None => ret false
        end
      else ret false) s0 = searchConstant stores s0).
  { apply forEachUntil_searchConstant. intros Fn s0 HFn.
    rewrite forallb_forall in Hshape.
    specialize (Hshape Fn (proj1 (list_elem_of_In _ _) HFn)).
    destruct (isGlobalInitOf G Fn); [|done].
    destruct (findInitializer Fn) as [InitF|]; [|done]. simpl in *.
    rewrite (right_id_L [] (++)), andb_true_r in *.
    rewrite forEachUntil_concat. apply forEachUntil_searchConstant.
    intros I s1 HI. apply visitInitializerInstruction_searchConstant.
    rewrite forallb_forall in Hshape. apply Hshape. by apply list_elem_of_In. }
  unfold bind. rewrite Hloop.
  destruct (searchConstant_spec stores s) as [s1 ->].
  by destruct (existsb isConstant (evaluateAll stores s).1).
Qed.


(** *** Replaying the pass *)












End PassFacts.

(** ** Facts about the modelled evaluator *)

Module EvaluatorFacts.
Import Evaluator.

Section Facts.
Variable defs : gmap nat ValueDef.
Variable ceiling : nat.
Variable memoize : bool.

Lemma extends_refl st : extends st st.
Proof. by split. Qed.

Lemma extends_trans st1 st2 st3 :
  extends st1 st2 -> extends st2 st3 -> extends st1 st3.
Proof. intros [? ?] [? ?]. split; [lia|by etrans]. Qed.

Lemma extends_tick st : extends st (tick st).
Proof. split; simpl; [lia|done]. Qed.

Lemma recall_None v st :
  calculatedValues st !! v = None -> recall memoize v st = None.
Proof. unfold recall. by destruct memoize. Qed.

Lemma extends_keep v r st st' :
  recall memoize v st = None ->
  extends st st' -> extends st (keep memoize v r st').
Proof.
  unfold recall, keep. destruct memoize; [|done].
  intros Hv [? ?]. split; simpl; [done|]. by apply insert_subseteq_r.
Qed.

Lemma evaluateOperands_extends ev operands :
  (forall v st o st', ev v st = Some (o, st') -> extends st st') ->
  forall st o st',
    evaluateOperands ev operands st = Some (o, st') -> extends st st'.
Proof.
  intros Hev. induction operands as [|v vs IH]; intros st o st' Heq; simpl in Heq.
  - simplify_eq. apply extends_refl.
  - destruct (ev v st) as [[[r|] st1]|] eqn:Hv; [|by simplify_eq; eauto|done].
    apply Hev in Hv.
    destruct (evaluateOperands ev vs st1) as [[[rs|] st2]|] eqn:Hvs;
      simplify_eq; eauto using extends_trans.
Qed.

Lemma evaluateWithin_extends depth :
  forall v st o st',
    evaluateWithin defs ceiling memoize depth v st = Some (o, st') -> extends st st'.
Proof.
  induction depth as [|depth IH]; intros v st o st' Heq; simpl in Heq; [done|].
  destruct (recall memoize v st) as [r|] eqn:Hv.
  { simplify_eq. apply extends_refl. }
  pose proof (extends_tick st) as Htick.
  destruct (ceiling <? _); [by simplify_eq|].
  pose proof (fun operands => evaluateOperands_extends _ operands IH) as Hops.
  unfold finish in Heq.
  destruct (defs !! v) as [[z|b|s|operands|kind operands|]|];
    try (simplify_eq; by apply extends_keep).
  - destruct (evaluateOperands _ operands (tick st)) as [[[rs|] st2]|] eqn:Hrs;
      simplify_eq; apply Hops in Hrs;
      [apply extends_keep; [done|]|]; by eapply extends_trans.
  - destruct (evaluateOperands _ operands (tick st)) as [[[rs|] st2]|] eqn:Hrs;
      simplify_eq; apply Hops in Hrs;
      [apply extends_keep; [done|]|]; by eapply extends_trans.
Qed.

Lemma evaluateOperands_total ev operands bound :
  (forall v st, bound <= counter st -> is_Some (ev v st)) ->
  (forall v st o st', ev v st = Some (o, st') -> extends st st') ->
  forall st, bound <= counter st -> is_Some (evaluateOperands ev operands st).
Proof.
  intros Hev Hext. induction operands as [|v vs IH]; intros st Hst; simpl; [done|].
  destruct (Hev v st Hst) as [[[r|] st1] Hv]; rewrite Hv; [|done].
  apply Hext in Hv as [Hc _].
  destruct (IH st1) as [[[rs|] st2] Hvs]; [lia|by rewrite Hvs..].
Qed.

Lemma evaluateWithin_total depth :
  forall v st,
    ceiling - counter st < depth ->
    is_Some (evaluateWithin defs ceiling memoize depth v st).
Proof.
  induction depth as [|depth IH]; intros v st Hdepth; simpl; [lia|].
  destruct (recall memoize v st) as [r|]; [done|].
  destruct (ceiling <? _) eqn:Hc; [done|].
  apply Nat.ltb_ge in Hc.
  assert (forall operands,
             is_Some (evaluateOperands (evaluateWithin defs ceiling memoize depth)
                        operands (tick st))) as Hops.
  { intros operands.
    apply (evaluateOperands_total _ _ (S ceiling - depth)).
    - intros u st0 Hst0. apply IH. lia.
    - apply evaluateWithin_extends.
    - simpl. lia. }
  unfold finish.
  destruct (defs !! v) as [[z|b|s|operands|kind operands|]|]; try done.
  - by destruct (Hops operands) as [[[rs|] st2] ->].
  - by destruct (Hops operands) as [[[rs|] st2] ->].
Qed.



Lemma counter_keep v r st : counter (keep memoize v r st) = counter st.
Proof. unfold keep. by destruct memoize. Qed.

(** A value is produced without the counter passing the ceiling. *)
Lemma evaluateOperands_within_budget ev operands :
  (forall v st r st',
      ev v st = Some (Folded r, st') ->
      counter st <= ceiling -> counter st' <= ceiling) ->
  forall st rs st',
    evaluateOperands ev operands st = Some (Folded rs, st') ->
    counter st <= ceiling -> counter st' <= ceiling.
Proof.
  intros Hev. induction operands as [|v vs IH]; intros st rs st' Heq Hst;
    simpl in Heq; [by simplify_eq|].
  destruct (ev v st) as [[[r|] st1]|] eqn:Hv; try done.
  destruct (evaluateOperands ev vs st1) as [[[rs'|] st2]|] eqn:Hvs;
    simplify_eq. eauto.
Qed.

Lemma evaluateWithin_within_budget depth :
  forall v st r st',
    evaluateWithin defs ceiling memoize depth v st = Some (Folded r, st') ->
    counter st <= ceiling -> counter st' <= ceiling.
Proof.
  induction depth as [|depth IH]; intros v st r st' Heq Hst; simpl in Heq;
    [done|].
  destruct (recall memoize v st) as [r0|]; [by simplify_eq|].
  destruct (ceiling <? _) eqn:Hc; [done|]. apply Nat.ltb_ge in Hc.
  pose proof (fun operands =>
                evaluateOperands_within_budget _ operands IH) as Hops.
  unfold finish in Heq.
  destruct (defs !! v) as [[z|b|s|operands|kind operands|]|];
    try (simplify_eq; by rewrite counter_keep).
  - destruct (evaluateOperands _ operands (tick st)) as [[[rs|] st2]|] eqn:Hrs;
      simplify_eq. rewrite counter_keep. by eapply Hops.
  - destruct (evaluateOperands _ operands (tick st)) as [[[rs|] st2]|] eqn:Hrs;
      simplify_eq. rewrite counter_keep. by eapply Hops.
Qed.

Lemma evaluateWithin_fresh_within_budget depth v st r st' :
  evaluateWithin defs ceiling memoize depth v st = Some (Folded r, st') ->
  recall memoize v st = None ->
  counter st' <= ceiling.
Proof.
  destruct depth as [|depth]; simpl; [done|]. intros Heq Hv.
  rewrite Hv in Heq.
  destruct (ceiling <? _) eqn:Hc; [done|]. apply Nat.ltb_ge in Hc.
  pose proof (fun operands =>
                evaluateOperands_within_budget _ operands
                  (evaluateWithin_within_budget depth)) as Hops.
  unfold finish in Heq.
  destruct (defs !! v) as [[z|b|s|operands|kind operands|]|];
    try (simplify_eq; by rewrite counter_keep).
  - destruct (evaluateOperands _ operands (tick st)) as [[[rs|] st2]|] eqn:Hrs;
      simplify_eq. rewrite counter_keep. by eapply Hops.
  - destruct (evaluateOperands _ operands (tick st)) as [[[rs|] st2]|] eqn:Hrs;
      simplify_eq. rewrite counter_keep. by eapply Hops.
Qed.




Lemma evaluateOperands_mono ev ev' operands :
  (forall v st r, ev v st = Some r -> ev' v st = Some r) ->
  forall st r,
    evaluateOperands ev operands st = Some r ->
    evaluateOperands ev' operands st = Some r.
Proof.
  intros Hev. induction operands as [|v vs IH]; intros st r Heq; simpl in *;
    [done|].
  destruct (ev v st) as [[[x|] st1]|] eqn:Hv; try done;
    rewrite (Hev _ _ _ Hv); [|done].
  destruct (evaluateOperands ev vs st1) as [[[xs|] st2]|] eqn:Hvs; try done;
    by rewrite (IH _ _ Hvs).
Qed.

Lemma evaluateWithin_deeper depth :
  forall v st r,
    evaluateWithin defs ceiling memoize depth v st = Some r ->
    evaluateWithin defs ceiling memoize (S depth) v st = Some r.
Proof.
  induction depth as [|depth IH]; intros v st r Heq; [done|].
  pose proof (fun operands => evaluateOperands_mono _ _ operands IH) as Hops.
  remember (S depth) as d eqn:Hd. simpl. subst d. simpl in Heq.
  destruct (recall memoize v st); [done|].
  destruct (ceiling <? _); [done|].
  destruct (defs !! v) as [[z|b|s|operands|kind operands|]|]; try done.
  - destruct (evaluateOperands (evaluateWithin defs ceiling memoize depth) operands (tick st))
      as [p|] eqn:Hrs; [|done]. by rewrite (Hops _ _ _ Hrs).
  - destruct (evaluateOperands (evaluateWithin defs ceiling memoize depth) operands (tick st))
      as [p|] eqn:Hrs; [|done]. by rewrite (Hops _ _ _ Hrs).
Qed.

Lemma evaluateWithin_le depth depth' v st r :
  depth <= depth' ->
  evaluateWithin defs ceiling memoize depth v st = Some r ->
  evaluateWithin defs ceiling memoize depth' v st = Some r.
Proof.
  induction 1 as [|depth' _ IH]; [done|]. intros Heq.
  by apply evaluateWithin_deeper, IH.
Qed.

Lemma evaluateWithin_depth_irrelevant depth v st :
  ceiling - counter st < depth ->
  evaluateWithin defs ceiling memoize depth v st
  = evaluateWithin defs ceiling memoize (S ceiling) v st.
Proof.
  intros Hdepth.
  destruct (evaluateWithin_total depth v st Hdepth) as [r Hr].
  destruct (evaluateWithin_total (S ceiling) v st) as [r' Hr']; [lia|].
  rewrite Hr, Hr'.
  apply (evaluateWithin_le _ (depth `max` S ceiling)) in Hr; [|lia].
  apply (evaluateWithin_le _ (depth `max` S ceiling)) in Hr'; [|lia].
  congruence.
Qed.

Lemma isConstant_not_unknown r : isConstant r = true -> isUnknown r = false.
Proof. by destruct r. Qed.

Lemma settled_agree r :
  settled r = true -> containsOnlyConstants r = isConstant r.
Proof.
  unfold settled. destruct r as [| | | |ms]; try done. simpl. intros Hms.
  rewrite Hms. apply forallb_forall. intros m Hm.
  rewrite forallb_forall in Hms. by rewrite (isConstant_not_unknown _ (Hms m Hm)).
Qed.

Lemma foldBuiltin_settled kind rs : settled (foldBuiltin kind rs) = true.
Proof. unfold foldBuiltin. by repeat case_match. Qed.

Lemma cacheSettled_keep v r st :
  settled r = true -> cacheSettled st -> cacheSettled (keep memoize v r st).
Proof.
  intros Hr Hst. unfold keep. destruct memoize; [|done].
  by apply map_Forall_insert_2.
Qed.

Lemma evaluateOperands_settled ev operands :
  (forall v st o st',
      ev v st = Some (o, st') -> cacheSettled st -> cacheSettled st') ->
  forall st o st',
    evaluateOperands ev operands st = Some (o, st') ->
    cacheSettled st -> cacheSettled st'.
Proof.
  intros Hev. induction operands as [|v vs IH]; intros st o st' Heq Hst;
    simpl in Heq; [by simplify_eq|].
  destruct (ev v st) as [[[r|] st1]|] eqn:Hv; [|by simplify_eq; eauto|done].
  apply Hev in Hv; [|done].
  destruct (evaluateOperands ev vs st1) as [[[rs'|] st2]|] eqn:Hvs;
    simplify_eq; eauto.
Qed.

Lemma evaluateWithin_settled depth :
  forall v st o st',
    evaluateWithin defs ceiling memoize depth v st = Some (o, st') ->
    cacheSettled st ->
    cacheSettled st' /\
    match o with
    | Folded r => settled r = true
    | Aborted => True
    end.
Proof.
  induction depth as [|depth IH]; intros v st o st' Heq Hst; simpl in Heq;
    [done|].
  destruct (recall memoize v st) as [r0|] eqn:Hv.
  { simplify_eq. split; [done|]. unfold recall in Hv.
    destruct memoize; [by apply (Hst v)|done]. }
  destruct (ceiling <? _); [by simplify_eq|].
  pose proof (fun operands =>
                evaluateOperands_settled _ operands
                  (fun v st o st' Heq Hst => proj1 (IH v st o st' Heq Hst)))
    as Hops.
  unfold finish in Heq.
  destruct (defs !! v) as [[z|b|s|operands|kind operands|]|];
    try (simplify_eq; split; [by apply cacheSettled_keep|done]).
  - destruct (evaluateOperands _ operands (tick st)) as [[[rs|] st2]|] eqn:Hrs;
      simplify_eq; pose proof (Hops _ _ _ _ Hrs Hst) as Hst2; [|done].
    assert (settled (if forallb isConstant rs then Aggregate rs else Unknown) = true)
      as Hr.
    { destruct (forallb isConstant rs) eqn:Hc; [|done].
      unfold settled. simpl. by rewrite Hc. }
    split; [by apply cacheSettled_keep|done].
  - destruct (evaluateOperands _ operands (tick st)) as [[[rs|] st2]|] eqn:Hrs;
      simplify_eq; pose proof (Hops _ _ _ _ Hrs Hst) as Hst2; [|done].
    split; [|apply foldBuiltin_settled].
    apply cacheSettled_keep; [apply foldBuiltin_settled|done].
Qed.

Lemma evaluate_settled v st :
  cacheSettled st ->
  settled (evaluate defs ceiling memoize v st).1 = true /\
  cacheSettled (evaluate defs ceiling memoize v st).2.
Proof.
  intros Hst. unfold evaluate.
  destruct (evaluateWithin defs ceiling memoize (S ceiling) v st)
    as [[[r|] st']|] eqn:Heq; simpl; [| |done].
  - by destruct (evaluateWithin_settled _ _ _ _ _ Heq Hst).
  - destruct (evaluateWithin_settled _ _ _ _ _ Heq Hst) as [Hst' _].
    split; [done|]. by apply cacheSettled_keep.
Qed.

(** On the answers of the evaluator the two constant-ness checks agree:
    an aggregate is only ever built from constant members. *)
Lemma evaluate_checks_agree v st :
  cacheSettled st ->
  containsOnlyConstants (evaluate defs ceiling memoize v st).1
  = isConstant (evaluate defs ceiling memoize v st).1.
Proof. intros Hst. apply settled_agree. by apply evaluate_settled. Qed.

(** C8: the evaluator is total.  A nesting depth of the ceiling plus
    one is always enough for an evaluation to end with an answer,
    whatever the table of definitions is (nested arbitrarily deep, or
    even cyclic), and no larger depth changes the answer; the answer to a
    query that is not cached is Unknown when the counter has reached the
    ceiling before the query, and whenever the counter is past the
    ceiling after it. *)
Theorem evaluate_is_total v st :
  (exists p st',
      evaluateWithin defs ceiling memoize (S ceiling) v st = Some (p, st')) /\
  (forall depth,
      ceiling - counter st < depth ->
      evaluateWithin defs ceiling memoize depth v st
      = evaluateWithin defs ceiling memoize (S ceiling) v st) /\
  (calculatedValues st !! v = None ->
   ceiling <= counter st ->
   (evaluate defs ceiling memoize v st).1 = Unknown) /\
  (calculatedValues st !! v = None ->
   ceiling < counter (evaluate defs ceiling memoize v st).2 ->
   (evaluate defs ceiling memoize v st).1 = Unknown).
Proof.
  split; [|split; [|split]].
  - destruct (evaluateWithin_total (S ceiling) v st) as [[p st'] Heq]; [lia|].
    by exists p, st'.
  - intros depth. apply evaluateWithin_depth_irrelevant.
  - intros Hv%recall_None Hc. unfold evaluate. simpl. rewrite Hv.
    by rewrite (proj2 (Nat.ltb_lt ceiling (S (counter st)))) by lia.
  - intros Hv%recall_None. unfold evaluate.
    destruct (evaluateWithin defs ceiling memoize (S ceiling) v st)
      as [[[r|] st']|] eqn:Heq; try done.
    + pose proof (evaluateWithin_fresh_within_budget _ _ _ _ _ Heq Hv).
      simpl. lia.
Qed.


End Facts.
End EvaluatorFacts.

(** ** Examples *)

Module ExampleFacts.
Import Evaluator Examples.

Lemma short_argument_list_witness :
  getAsFuncDecl calleeFn = Some calleeDecl /\
  hasConstParameter (getParameters calleeDecl) = true /\
  length shortCallArgs < length (getParameters calleeDecl) /\
  outcomeOf (verifyCallArgumentsOf (CE := exampleEvaluator)
               (Some calleeFn) shortCallArgs plainCallLoc initialState)
  = Crash IndexOutOfBounds.
Proof.
  split; [reflexivity|]. split; [reflexivity|]. split; [simpl; lia|].
  apply (short_argument_list_is_read_out_of_bounds
           (CE := exampleEvaluator) calleeFn calleeDecl);
    [reflexivity|reflexivity|simpl; lia].
Defined.

(** C2, as stated, fails: a global with two offending operands gets two
    diagnostics, not exactly one. *)
Lemma static_initializer_two_diagnostics_for_one_global :
  let answers := (evaluateAll (CE := exampleEvaluator) [0; 8; 9] initialState).1 in
  let emitted :=
    diagnosticsOf (verifyStaticallyInitializedGlobal (CE := exampleEvaluator)
                     twoOpaqueOperands constDecl initialState) in
  existsb (fun r => negb (containsOnlyConstants r)) answers = true /\
  emitted = [mkDiagnostic 100 require_const_initializer_for_const;
             mkDiagnostic 100 require_const_initializer_for_const] /\
  emitted <> [mkDiagnostic 100 require_const_initializer_for_const].
Proof. vm_compute. by repeat split. Qed.

Lemma static_initializer_reports_witness :
  getStaticInitializerValue twoOpaqueOperands = Some (StructInst [0; 8; 9]) /\
  verifyStaticallyInitializedGlobal (CE := exampleEvaluator)
    twoOpaqueOperands constDecl initialState =
  let '(answers, s') :=
    evaluateAll (CE := exampleEvaluator) [0; 8; 9] initialState in
  (Done tt,
   replicate
     (length (filter (fun r => negb (containsOnlyConstants r) = true) answers))
     (mkDiagnostic (getLoc constDecl) require_const_initializer_for_const),
   s').
Proof.
  split; [reflexivity|].
  apply (static_initializer_reports_each_offending_operand
           (CE := exampleEvaluator) twoOpaqueOperands constDecl [0; 8; 9]).
  reflexivity.
Defined.


Lemma argument_list_is_read_past_its_end_witness :
  getAsFuncDecl calleeFn = Some calleeDecl /\
  getAsApplyExpr exprCallLoc
    = Some (mkApplyExpr (mkArgumentList 49 [mkArgument 51; mkArgument 52])) /\
  0 < 1 /\
  getParameters calleeDecl !! 1 = Some (mkVarDecl true 11 11) /\
  isConstVal (mkVarDecl true 11 11) = true /\
  fullCallArgs !! 1 = Some 8 /\
  (forall s',
      isConstant (getConstantValue (ConstExprEvaluator := statelessEvaluator)
                    8 s').1 = false) /\
  let result :=
    verifyCallArgumentsOf (CE := statelessEvaluator)
      (Some calleeFn) fullCallArgs exprCallLoc tt in
  outcomeOf result = Crash IndexOutOfBounds /\
  (diagnosticsOf result = [] \/
   diagnosticsOf result = [mkDiagnostic 49 require_const_arg_for_parameter]).
Proof.
  split; [reflexivity|]. split; [reflexivity|]. split; [lia|].
  split; [reflexivity|]. split; [reflexivity|]. split; [reflexivity|].
  split; [intros s'; reflexivity|].
  apply (argument_list_is_read_past_its_end
           (CE := statelessEvaluator) calleeFn calleeDecl fullCallArgs
           exprCallLoc
           (mkApplyExpr (mkArgumentList 49 [mkArgument 51; mkArgument 52]))
           1 (mkVarDecl true 11 11) 8 tt);
    [reflexivity|reflexivity|lia|reflexivity|reflexivity|reflexivity|].
  intros s'. reflexivity.
Defined.

(** A first parameter that is constant-required is reported at the
    location of the argument list (49), not at the location of its
    argument (51). *)
Example first_argument_is_reported_at_the_list :
  verifyCallArgumentsOf (CE := statelessEvaluator)
    (Some (mkSILFunction 22 (Some (mkFuncDecl [mkVarDecl true 12 12])) []))
    [8] exprCallLoc tt
  = (Done tt, [mkDiagnostic 49 require_const_arg_for_parameter], tt).
Proof. reflexivity. Qed.

Lemma initialize_once_global_witness :
  singleUsesAreStores (GU := storeInits) storeModule lazyGlobal = true /\
  outcomeOf (verifyInitializeOnceGlobal (CE := exampleEvaluator) (GU := storeInits)
               storeModule lazyGlobal constDecl initialState) = Done tt /\
  diagnosticsOf (verifyInitializeOnceGlobal (CE := exampleEvaluator) (GU := storeInits)
                   storeModule lazyGlobal constDecl initialState) =
    if existsb isConstant
         (evaluateAll (CE := exampleEvaluator)
            (initializingStores (GU := storeInits) storeModule lazyGlobal)
            initialState).1
    then []
    else [mkDiagnostic (getLoc constDecl) require_const_initializer_for_const].
Proof.
  split; [reflexivity|].
  apply (initialize_once_global_verdict
           (CE := exampleEvaluator) (GU := storeInits)
           storeModule lazyGlobal constDecl initialState).
  reflexivity.
Defined.

Lemma static_initializer_not_a_struct_witness :
  getStaticInitializerValue literalInitialized = Some (OtherInst 0) /\
  isaStructInst (OtherInst 0) = false /\
  verifyStaticallyInitializedGlobal (CE := exampleEvaluator)
    literalInitialized constDecl initialState
  = (Done tt, [], initialState).
Proof.
  split; [reflexivity|]. split; [reflexivity|].
  apply (static_initializer_not_a_struct_is_silent
           (CE := exampleEvaluator) literalInitialized constDecl (OtherInst 0));
    reflexivity.
Defined.

(** Aggregates nested five deep under a ceiling of three: the answer is
    Unknown. *)
Lemma evaluate_is_total_witness :
  calculatedValues initialState !! 5 = None /\
  3 < counter (evaluate nestedDefs 3 true 5 initialState).2 /\
  (evaluate nestedDefs 3 true 5 initialState).1 = Unknown.
Proof.
  split; [reflexivity|]. split; [vm_compute; lia|].
  destruct (EvaluatorFacts.evaluate_is_total nestedDefs 3 true 5 initialState)
    as (_ & _ & _ & Hpast).
  apply Hpast; [reflexivity|vm_compute; lia].
Defined.

(** The three checks run in turn, each in layout order: two diagnostics
    for the global with two opaque operands (the lazily initialized one
    stores a constant), one for the local binding; the call, whose
    second argument is not constant and whose location has the call
    expression behind it, stops the pass. *)
Example run_on_a_whole_module :
  let result := run (CE := exampleEvaluator) (GU := storeInits)
                  wholeModule initialState in
  outcomeOf result = Crash IndexOutOfBounds /\
  diagnosticsOf result =
    [mkDiagnostic 100 require_const_initializer_for_const;
     mkDiagnostic 100 require_const_initializer_for_const;
     mkDiagnostic 61 require_const_arg_for_parameter].
Proof. vm_compute. by split. Qed.

(** Under a ceiling that covers them, the same aggregates fold. *)
Example nested_aggregates_fold :
  (evaluate nestedDefs 3072 true 2 initialState).1
  = Aggregate [Aggregate [Integer 1]].
Proof. vm_compute. reflexivity. Qed.


End ExampleFacts.

(** ** Further facts about the pass *)

Section FurtherPassFacts.
Context `{CE : ConstExprEvaluator} `{GU : GlobalInitUtils}.

Lemma forEach_skip {A} (xs : list A) body :
  (forall x s, x ∈ xs -> body x s = (Done tt, [], s)) ->
  forall s, forEach xs body s = (Done tt, [], s).
Proof.
  induction xs as [|x xs IH]; intros Hbody s; simpl; [done|].
  unfold bind. rewrite Hbody by left. rewrite IH; [done|].
  intros y s0 Hy. apply Hbody. by right.
Qed.

Lemma forEach_filter {A} (p : A -> bool) (xs : list A) body :
  (forall x s, p x = false -> body x s = (Done tt, [], s)) ->
  forall s, forEach (filter (fun x => p x = true) xs) body s = forEach xs body s.
Proof.
  intros Hskip. induction xs as [|x xs IH]; intros s; [done|].
  rewrite filter_cons. destruct (p x) eqn:Hp.
  - rewrite decide_True by done. simpl. by apply bind_ext.
  - rewrite decide_False by done. simpl. unfold bind.
    rewrite (Hskip _ _ Hp). rewrite IH.
    by destruct (forEach xs body s) as [[o d] s'].
Qed.

Lemma existsb_false {A} (f : A -> bool) (xs : list A) x :
  existsb f xs = false -> x ∈ xs -> f x = false.
Proof.
  induction xs as [|y ys IH]; simpl; [by intros _ ?%not_elem_of_nil|].
  intros [Hy Hys]%orb_false_elim [->|Hx]%elem_of_cons; auto.
Qed.

Lemma forEach_ext {A} (xs : list A) body body' :
  (forall x s, x ∈ xs -> body x s = body' x s) ->
  forall s, forEach xs body s = forEach xs body' s.
Proof.
  induction xs as [|x xs IH]; intros Hbody s; simpl; [done|].
  apply bind_ext; [intros; apply Hbody; by left|].
  intros _ s0. apply IH. intros y s1 Hy. apply Hbody. by right.
Qed.

(** X2: the global check passes over every global that has no
    declaration or whose declaration is not constant-required, whatever
    its initializer is: it reports, stops and leaves the evaluator as it
    does on the module that has the constant-required globals only. *)
Theorem verifyGlobals_only_constRequired globals fns s :
  verifyGlobals (mkSILModule globals fns) s =
  verifyGlobals
    (mkSILModule (filter (fun G => isConstRequiredGlobal G = true) globals) fns) s.
Proof.
  unfold verifyGlobals. simpl. symmetry.
  rewrite (forEach_filter isConstRequiredGlobal); [done|].
  intros G s0. unfold isConstRequiredGlobal.
  destruct (getGlobalDecl G) as [Decl|]; [|done]. by intros ->.
Qed.

(** X1: on a module with no constant-required global, no debug binding
    of a constant-required declaration and no call of a callee with a
    constant-required parameter, the pass ends normally, emits nothing
    and never asks the evaluator, whatever else the module contains
    (calls with too few operands included). *)
Theorem run_without_const_is_silent M s :
  usesConst M = false -> run M s = (Done tt, [], s).
Proof.
  unfold usesConst. intros [Hg Hf]%orb_false_elim.
  assert (forall s0, verifyGlobals M s0 = (Done tt, [], s0)) as HG.
  { apply forEach_skip. intros G s0 HG.
    pose proof (existsb_false _ _ _ Hg HG) as HGf.
    unfold isConstRequiredGlobal in HGf.
    destruct (getGlobalDecl G) as [Decl|]; [|done]. by rewrite HGf. }
  assert (forall F BB I, F ∈ getFunctions M -> BB ∈ getBlocks F -> I ∈ BB ->
            usesConstInstruction I = false) as HI.
  { intros F BB I HF HBB HIn.
    pose proof (existsb_false _ _ _ Hf HF) as H1. simpl in H1.
    pose proof (existsb_false _ _ _ H1 HBB) as H2. simpl in H2.
    exact (existsb_false _ _ _ H2 HIn). }
  assert (forall s0, verifyLocals M s0 = (Done tt, [], s0)) as HL.
  { apply forEach_skip. intros F s0 HF.
    apply forEach_skip. intros BB s1 HBB.
    apply forEach_skip. intros I s2 HIn.
    specialize (HI F BB I HF HBB HIn).
    destruct I as [| | |[D|] op| |]; try done. simpl in HI.
    unfold verifyLocal. by rewrite HI. }
  assert (forall s0, verifyCallArguments M s0 = (Done tt, [], s0)) as HC.
  { apply forEach_skip. intros F s0 HF.
    apply forEach_skip. intros BB s1 HBB.
    apply forEach_skip. intros I s2 HIn.
    specialize (HI F BB I HF HBB HIn).
    destruct I as [| | | |[Fn|] args loc|]; try done. simpl in HI.
    unfold verifyCallArgumentsOf.
    destruct (getAsFuncDecl Fn) as [FD|]; [|done]. by rewrite HI. }
  unfold run, bind. by rewrite HG, HL, HC.
Qed.

(** *** What the checks emit, and how they can stop *)

Lemma ensures_ret {A} P (Q : A -> Prop) a : Q a -> ensures P Q (ret a).
Proof. intros HQ s. by split. Qed.

Lemma ensures_crash {A} P (Q : A -> Prop) f : ensures P Q (crash f).
Proof. intros s. by split. Qed.

Lemma ensures_diagnose (P : Diagnostic -> Prop) (Q : unit -> Prop) loc id :
  P (mkDiagnostic loc id) -> Q tt -> ensures P Q (diagnose loc id).
Proof. intros HP HQ s. split; [by apply Forall_singleton|done]. Qed.

Lemma ensures_constantValueOf P (Q : SymbolicValue -> Prop) v :
  (forall s, Q (getConstantValue v s).1) -> ensures P Q (constantValueOf v).
Proof.
  intros HQ s. specialize (HQ s). unfold constantValueOf, outcomeOf, diagnosticsOf.
  by destruct (getConstantValue v s).
Qed.

Lemma ensures_subscript {A} P (Q : A -> Prop) (xs : list A) i :
  (forall x, xs !! i = Some x -> Q x) -> ensures P Q (subscript xs i).
Proof.
  intros HQ. unfold subscript.
  destruct (xs !! i); [apply ensures_ret; auto|apply ensures_crash].
Qed.

Lemma ensures_bind {A B} P (Q : A -> Prop) (R : B -> Prop) m k :
  ensures P Q m -> (forall a, Q a -> ensures P R (k a)) -> ensures P R (bind m k).
Proof.
  unfold ensures, bind, outcomeOf, diagnosticsOf. intros Hm Hk s.
  destruct (Hm s) as [Hd Ho]. destruct (m s) as [[[a|f] d1] s1]; simpl in *; [|done].
  destruct (Hk a Ho s1) as [Hd2 Ho2].
  destruct (k a s1) as [[o2 d2] s2]; simpl in *. split; [|done].
  by apply Forall_app.
Qed.

Lemma ensures_forEach {A} P (xs : list A) body :
  (forall x, x ∈ xs -> ensures P (fun _ => True) (body x)) ->
  ensures P (fun _ => True) (forEach xs body).
Proof.
  induction xs as [|x xs IH]; intros Hbody; simpl; [by apply ensures_ret|].
  eapply ensures_bind; [apply Hbody; by left|]. intros _ _.
  apply IH. intros y Hy. apply Hbody. by right.
Qed.

Lemma ensures_forEachUntil {A} P (xs : list A) body :
  (forall x, x ∈ xs -> ensures P (fun _ => True) (body x)) ->
  ensures P (fun _ => True) (forEachUntil xs body).
Proof.
  induction xs as [|x xs IH]; intros Hbody; simpl; [by apply ensures_ret|].
  eapply ensures_bind; [apply Hbody; by left|]. intros [] _.
  - by apply ensures_ret.
  - apply IH. intros y Hy. apply Hbody. by right.
Qed.

Lemma initializer_walk_emits_nothing P M G :
  ensures P (fun _ => True)
    (forEachUntil (getFunctions M) (fun Fn =>
       if isGlobalInitOf G Fn then
         match findInitializer Fn with
         | Some InitF =>
             forEachUntil (getBlocks InitF) (fun BB =>
               forEachUntil BB (visitInitializerInstruction G))
         | None => ret false
         end
       else ret false)).
Proof.
  apply ensures_forEachUntil. intros Fn _.
  destruct (isGlobalInitOf G Fn); [|by apply ensures_ret].
  destruct (findInitializer Fn) as [InitF|]; [|by apply ensures_ret].
  apply ensures_forEachUntil. intros BB _.
  apply ensures_forEachUntil. intros I _.
  unfold visitInitializerInstruction.
  destruct I as [|g us| | | |]; try by apply ensures_ret.
  destruct (g =? globalName G); [|by apply ensures_ret].
  destruct (getSingleUse us) as [user|]; [|by apply ensures_ret].
  destruct user; try apply ensures_crash.
  eapply ensures_bind; [by apply (ensures_constantValueOf _ (fun _ => True))|].
  intros r _. by apply ensures_ret.
Qed.

Lemma verifyGlobals_emits M : emitsOnly (globalDiagnosticOf M) (verifyGlobals M).
Proof.
  apply ensures_forEach. intros G HG.
  destruct (getGlobalDecl G) as [Decl|] eqn:HDecl; [|by apply ensures_ret].
  destruct (isConstVal Decl) eqn:Hconst; [|by apply ensures_ret].
  assert (globalDiagnosticOf M
            (mkDiagnostic (getLoc Decl) require_const_initializer_for_const))
    as Hdiag.
  { split; [done|]. by exists G, Decl. }
  destruct (getStaticInitializerValue G) as [I|] eqn:HI.
  - unfold verifyStaticallyInitializedGlobal. rewrite HI.
    destruct I; try by apply ensures_ret.
    apply ensures_forEach. intros SIO _.
    eapply ensures_bind; [by apply (ensures_constantValueOf _ (fun _ => True))|].
    intros r _. destruct (negb (containsOnlyConstants r));
      [by apply ensures_diagnose|by apply ensures_ret].
  - unfold verifyInitializeOnceGlobal.
    eapply ensures_bind; [apply initializer_walk_emits_nothing|].
    intros [] _; [by apply ensures_ret|by apply ensures_diagnose].
Qed.

Lemma verifyLocals_emits M : emitsOnly argumentDiagnostic (verifyLocals M).
Proof.
  apply ensures_forEach. intros F _. apply ensures_forEach. intros BB _.
  apply ensures_forEach. intros I _.
  destruct I as [| | |[D|] op| |]; try by apply ensures_ret.
  unfold verifyLocal. destruct (negb (isConstVal D)); [by apply ensures_ret|].
  eapply ensures_bind; [by apply (ensures_constantValueOf _ (fun _ => True))|].
  intros r _. destruct (negb (isConstant r));
    [by apply ensures_diagnose|by apply ensures_ret].
Qed.

Lemma verifyCallArguments_emits M :
  emitsOnly argumentDiagnostic (verifyCallArguments M).
Proof.
  apply ensures_forEach. intros F _. apply ensures_forEach. intros BB _.
  apply ensures_forEach. intros I _.
  destruct I as [| | | |[Fn|] args loc|]; try by apply ensures_ret.
  unfold verifyCallArgumentsOf.
  destruct (getAsFuncDecl Fn) as [FD|]; [|by apply ensures_ret].
  destruct (hasConstParameter _); [|by apply ensures_ret].
  apply ensures_forEach. intros i _. unfold verifyCallArgumentAt.
  eapply ensures_bind; [by apply (ensures_subscript _ (fun _ => True))|].
  intros a _.
  eapply ensures_bind; [by apply (ensures_subscript _ (fun _ => True))|].
  intros p _. destruct (isConstVal p); [|by apply ensures_ret].
  eapply ensures_bind; [by apply (ensures_constantValueOf _ (fun _ => True))|].
  intros r _. destruct (negb (isConstant r)); [|by apply ensures_ret].
  eapply (ensures_bind _ (fun _ => True)).
  - unfold argLocation. destruct (getAsApplyExpr loc) as [e|];
      [|by apply ensures_ret].
    eapply ensures_bind; [by apply (ensures_subscript _ (fun _ => True))|].
    intros; by apply ensures_ret.
  - intros l _. by apply ensures_diagnose.
Qed.

(** *** How the checks can stop *)

Lemma faultsOnlyWith_ret {A} f (a : A) : faultsOnlyWith f (ret a).
Proof. by intros s. Qed.

Lemma verifyLocals_reportAll M s :
  verifyLocals M s = reportAll bindingReport (constRequiredBindings M) s.
Proof.
  unfold verifyLocals, constRequiredBindings.
  apply (forEach_reportAll bindingReport). intros F s1 _.
  apply (forEach_reportAll bindingReport). intros BB s2 _.
  apply (forEach_reportAll bindingReport). intros I s3 _.
  destruct I; try done. apply verifyLocal_reportAll.
Qed.

Lemma reportAll_done {X} (report : X -> SymbolicValue -> list Diagnostic) sites s :
  outcomeOf (reportAll report sites s) = Done tt.
Proof. unfold reportAll, outcomeOf. by destruct (evaluateAll sites.*2 s). Qed.

Lemma verifyLocals_neverFaults M : neverFaults (verifyLocals M).
Proof. intros s. exists tt. rewrite verifyLocals_reportAll. apply reportAll_done. Qed.

Lemma verifyCallArguments_faults M :
  faultsOnlyWith IndexOutOfBounds (verifyCallArguments M).
Proof.
  apply forEach_faultsOnlyWith. intros F. apply forEach_faultsOnlyWith. intros BB.
  apply forEach_faultsOnlyWith. intros I.
  destruct I as [| | | |[Fn|] args loc|]; try apply faultsOnlyWith_ret.
  unfold verifyCallArgumentsOf.
  destruct (getAsFuncDecl Fn) as [FD|]; [|apply faultsOnlyWith_ret].
  destruct (hasConstParameter _); [|apply faultsOnlyWith_ret].
  apply forEach_faultsOnlyWith. intros i.
  apply verifyCallArgumentAt_faultsOnlyWith.
Qed.

(** *** When the pass ends normally *)

Lemma neverFaults_ret {A} (a : A) : neverFaults (ret a).
Proof. intros s. by exists a. Qed.

Lemma neverFaults_diagnose loc id : neverFaults (diagnose loc id).
Proof. intros s. by exists tt. Qed.

Lemma neverFaults_constantValueOf v : neverFaults (constantValueOf v).
Proof.
  intros s. unfold constantValueOf, outcomeOf.
  destruct (getConstantValue v s) as [r s1]. by exists r.
Qed.

Lemma neverFaults_bind {A B} (m : Pass A) (k : A -> Pass B) :
  neverFaults m -> (forall a, neverFaults (k a)) -> neverFaults (bind m k).
Proof.
  unfold neverFaults, bind, outcomeOf. intros Hm Hk s.
  destruct (Hm s) as [a Ha]. destruct (m s) as [[o d1] s1]; simpl in *. subst o.
  destruct (Hk a s1) as [b Hb]. destruct (k a s1) as [[o d2] s2]; simpl in *.
  by exists b.
Qed.

Lemma neverFaults_forEach {A} (xs : list A) body :
  (forall x, x ∈ xs -> neverFaults (body x)) -> neverFaults (forEach xs body).
Proof.
  induction xs as [|x xs IH]; intros Hbody; simpl; [apply neverFaults_ret|].
  apply neverFaults_bind; [apply Hbody; by left|].
  intros _. apply IH. intros y Hy. apply Hbody. by right.
Qed.

Lemma neverFaults_subscript {A} (xs : list A) i :
  i < length xs -> neverFaults (subscript xs i).
Proof.
  intros Hi. unfold subscript.
  destruct (lookup_lt_is_Some_2 xs i Hi) as [x ->]. apply neverFaults_ret.
Qed.

Lemma verifyGlobals_neverFaults M : neverFaults (verifyGlobals M).
Proof.
  apply neverFaults_forEach. intros G HG.
  destruct (getGlobalDecl G) as [Decl|]; [|apply neverFaults_ret].
  destruct (isConstVal Decl); [|apply neverFaults_ret].
  destruct (getStaticInitializerValue G) as [I|] eqn:HI.
  - unfold verifyStaticallyInitializedGlobal. rewrite HI.
    destruct I; try apply neverFaults_ret.
    apply neverFaults_forEach. intros SIO _.
    apply neverFaults_bind; [apply neverFaults_constantValueOf|].
    intros r. destruct (negb (containsOnlyConstants r));
      [apply neverFaults_diagnose|apply neverFaults_ret].
  - intros s. exists tt.
    apply verifyInitializeOnceGlobal_done, recognised_singleUsesAreStores.
Qed.

Lemma verifyCallArgumentAt_neverFaults params args ApplyLoc locs i :
  argumentLocations ApplyLoc params = Some locs ->
  length params <= length args ->
  i < length params ->
  neverFaults (verifyCallArgumentAt params args ApplyLoc i).
Proof.
  intros Hlocs Hargs Hi s. exists tt.
  pose proof (argumentLocations_length _ _ _ Hlocs) as Hlen.
  destruct (lookup_lt_is_Some_2 params i Hi) as [p Hp].
  destruct (lookup_lt_is_Some_2 args i) as [a Ha]; [lia|].
  destruct (lookup_lt_is_Some_2 locs i) as [l Hl]; [lia|].
  rewrite (verifyCallArgumentAt_reportAll _ _ _ _ _ _ _ _ _ Hlocs Hp Ha Hl).
  apply reportAll_done.
Qed.

Lemma verifyCallArguments_neverFaults M :
  callsAreComplete M = true -> neverFaults (verifyCallArguments M).
Proof.
  unfold callsAreComplete. rewrite forallb_forall. intros Hcalls.
  apply neverFaults_forEach. intros F HF.
  specialize (Hcalls F (proj1 (list_elem_of_In _ _) HF)).
  rewrite forallb_forall in Hcalls.
  apply neverFaults_forEach. intros BB HBB.
  specialize (Hcalls BB (proj1 (list_elem_of_In _ _) HBB)).
  rewrite forallb_forall in Hcalls.
  apply neverFaults_forEach. intros I HI.
  specialize (Hcalls I (proj1 (list_elem_of_In _ _) HI)).
  destruct I as [| | | |[Fn|] args loc|]; try apply neverFaults_ret.
  unfold verifyCallArgumentsOf. simpl in Hcalls.
  destruct (getAsFuncDecl Fn) as [FD|]; [|apply neverFaults_ret].
  destruct (hasConstParameter _); [|apply neverFaults_ret]. simpl in Hcalls.
  apply andb_true_iff in Hcalls as [Hargs%Nat.leb_le Hlocs].
  destruct (argumentLocations loc (getParameters FD)) as [locs|] eqn:HL; [|done].
  apply neverFaults_forEach. intros i [_ Hi]%elem_of_seq. simpl in Hi.
  by eapply verifyCallArgumentAt_neverFaults.
Qed.

Lemma outcomeOf_bind {A B} (m : Pass A) (k : A -> Pass B) s :
  outcomeOf (bind m k s) =
  match outcomeOf (m s) with
  | Done a => outcomeOf (k a (stateOf (m s)))
  | Crash f => Crash f
  end.
Proof.
  unfold bind, outcomeOf, stateOf.
  destruct (m s) as [[[a|f] d1] s1]; simpl; [|done].
  by destruct (k a s1) as [[o d2] s2].
Qed.

(** X3: a run is the global check, then the walk over the local
    bindings, then the walk over the calls, each starting from the
    evaluator object the one before left behind, and the first two always
    run to their end.  So the diagnostics of a run are those of the
    global check, then those of the local bindings, then those of the
    calls, and the run ends the way the walk over the calls ends; the
    diagnostics of the global check are
    [require_const_initializer_for_const] diagnostics, each at the
    location of the declaration of a constant-required global of the
    module, the others are [require_const_arg_for_parameter]
    diagnostics. *)
Theorem run_reports_globals_first M s :
  let globals := verifyGlobals M s in
  let locals := verifyLocals M (stateOf globals) in
  let calls := verifyCallArguments M (stateOf locals) in
  diagnosticsOf (run M s) =
    diagnosticsOf globals ++ diagnosticsOf locals ++ diagnosticsOf calls /\
  outcomeOf (run M s) = outcomeOf calls /\
  stateOf (run M s) = stateOf calls /\
  Forall (globalDiagnosticOf M) (diagnosticsOf globals) /\
  Forall argumentDiagnostic (diagnosticsOf locals ++ diagnosticsOf calls).
Proof.
  intros globals locals calls.
  destruct (verifyGlobals_neverFaults M s) as [[] HG].
  destruct (verifyLocals_neverFaults M (stateOf globals)) as [[] HL].
  fold globals in HG. fold locals in HL.
  split; [|split; [|split; [|split]]].
  - unfold run. rewrite diagnosticsOf_bind. fold globals. rewrite HG.
    rewrite diagnosticsOf_bind. fold locals. by rewrite HL.
  - unfold run. rewrite outcomeOf_bind. fold globals. rewrite HG.
    rewrite outcomeOf_bind. fold locals. by rewrite HL.
  - unfold run, bind, calls, locals, globals, outcomeOf, stateOf in *.
    destruct (verifyGlobals M s) as [[o1 d1] s1]; simpl in *. subst o1.
    destruct (verifyLocals M s1) as [[o2 d2] s2]; simpl in *. subst o2.
    by destruct (verifyCallArguments M s2) as [[o3 d3] s3].
  - apply verifyGlobals_emits.
  - apply Forall_app. split;
      [apply verifyLocals_emits|apply verifyCallArguments_emits].
Qed.

(** X4: the global check and the walk over the local bindings never
    stop early; the walk over the calls can stop early only on a
    subscript outside of what it indexes: the operand list of a call at
    a parameter index it does not have, or the pointer to the argument
    list at an index other than 0. *)
Theorem only_the_call_check_stops_early M :
  neverFaults (verifyGlobals M) /\
  neverFaults (verifyLocals M) /\
  faultsOnlyWith IndexOutOfBounds (verifyCallArguments M).
Proof.
  split; [apply verifyGlobals_neverFaults|].
  split; [apply verifyLocals_neverFaults|apply verifyCallArguments_faults].
Qed.

(** X5: when every call of a callee with a constant-required parameter
    has an operand for every parameter index and, if the call expression
    is recoverable from its location, no constant-required parameter
    after the first, the pass ends normally from every state of the
    evaluator. *)
Theorem run_ends_normally M :
  callsAreComplete M = true ->
  neverFaults (run M).
Proof.
  intros Hcalls. unfold run.
  apply neverFaults_bind; [apply verifyGlobals_neverFaults|]. intros _.
  apply neverFaults_bind; [apply verifyLocals_neverFaults|]. intros _.
  by apply verifyCallArguments_neverFaults.
Qed.

(** *** When everything folds *)

Lemma Forall_False_nil {A} (xs : list A) : Forall (fun _ => False) xs -> xs = [].
Proof. by destruct 1. Qed.

Lemma searchConstant_first_folds v vs s :
  isConstant (getConstantValue v s).1 = true ->
  searchConstant (v :: vs) s = (Done true, [], (getConstantValue v s).2).
Proof.
  intros Hc. unfold searchConstant. simpl. rewrite bind_assoc.
  unfold bind at 1. unfold constantValueOf at 1.
  destruct (getConstantValue v s) as [r s1]. simpl in Hc.
  by rewrite bind_ret_l, Hc.
Qed.

(** X6: with an evaluator that folds every value to a constant, a
    module whose initialize-once globals are each stored to once in
    their initializers gets no diagnostic at all, even when the run stops
    on an incomplete call. *)
Theorem run_is_silent_when_everything_folds M s :
  FoldsEverything ->
  initializersAreStores M = true ->
  initializersHaveStores M = true ->
  diagnosticsOf (run M s) = [].
Proof.
  intros Hfold Hshape Hstores. apply Forall_False_nil.
  assert (forall v, ensures (fun _ => False)
                      (fun r => isConstant r = true /\ containsOnlyConstants r = true)
                      (constantValueOf v)) as Hev.
  { intros v. by apply ensures_constantValueOf. }
  cut (ensures (fun _ => False) (fun _ => True) (run M));
    [intros Hrun; apply Hrun|].
  clear s. unfold run. eapply ensures_bind; [|intros _ _; eapply ensures_bind].
  - apply ensures_forEach. intros G HG.
    unfold initializersAreStores, initializersHaveStores in *.
    rewrite forallb_forall in Hshape, Hstores.
    specialize (Hshape G (proj1 (list_elem_of_In _ _) HG)).
    specialize (Hstores G (proj1 (list_elem_of_In _ _) HG)).
    unfold isInitializeOnceGlobal, isConstRequiredGlobal in *.
    destruct (getGlobalDecl G) as [Decl|]; [|by apply ensures_ret].
    destruct (isConstVal Decl); [|by apply ensures_ret].
    destruct (getStaticInitializerValue G) as [I|] eqn:HI.
    + unfold verifyStaticallyInitializedGlobal. rewrite HI.
      destruct I; try by apply ensures_ret.
      apply ensures_forEach. intros SIO _.
      eapply ensures_bind; [apply Hev|]. intros r [_ ->]. by apply ensures_ret.
    + simpl in *. intros s.
      assert (exists s', verifyInitializeOnceGlobal M G Decl s = (Done tt, [], s'))
        as [s' ->]; [|by split].
      unfold verifyInitializeOnceGlobal, bind.
      rewrite initializer_walk_searchConstant by done.
      destruct (initializingStores M G) as [|v vs]; [done|].
      rewrite (searchConstant_first_folds v vs s) by apply Hfold. by eexists.
  - apply ensures_forEach. intros F _. apply ensures_forEach. intros BB _.
    apply ensures_forEach. intros I _.
    destruct I as [| | |[D|] op| |]; try by apply ensures_ret.
    unfold verifyLocal. destruct (negb (isConstVal D)); [by apply ensures_ret|].
    eapply ensures_bind; [apply Hev|]. intros r [-> _]. by apply ensures_ret.
  - intros _ _.
    apply ensures_forEach. intros F _. apply ensures_forEach. intros BB _.
    apply ensures_forEach. intros I _.
    destruct I as [| | | |[Fn|] args loc|]; try by apply ensures_ret.
    unfold verifyCallArgumentsOf.
    destruct (getAsFuncDecl Fn) as [FD|]; [|by apply ensures_ret].
    destruct (hasConstParameter _); [|by apply ensures_ret].
    apply ensures_forEach. intros i _. unfold verifyCallArgumentAt.
    eapply ensures_bind; [by apply (ensures_subscript _ (fun _ => True))|].
    intros a _.
    eapply ensures_bind; [by apply (ensures_subscript _ (fun _ => True))|].
    intros p _. destruct (isConstVal p); [|by apply ensures_ret].
    eapply ensures_bind; [apply Hev|]. intros r [-> _]. by apply ensures_ret.
Qed.

(** *** The call check over a module *)

Lemma verifyCallArgumentsOf_reportAll CalleeFn CalleeDecl args ApplyLoc locs s :
  getAsFuncDecl CalleeFn = Some CalleeDecl ->
  length (getParameters CalleeDecl) <= length args ->
  argumentLocations ApplyLoc (getParameters CalleeDecl) = Some locs ->
  verifyCallArgumentsOf (Some CalleeFn) args ApplyLoc s =
  reportAll argumentReport
    (constRequiredSites (getParameters CalleeDecl) args locs) s.
Proof.
  intros HD Hargs Hlocs. unfold verifyCallArgumentsOf. rewrite HD.
  set (params := getParameters CalleeDecl) in *.
  destruct (hasConstParameter params) eqn:Hconst;
    [|by rewrite constRequiredSites_none].
  pose proof (argumentLocations_length _ _ _ Hlocs) as Hlen.
  set (paired := zip params (zip args locs)).
  assert (length paired = length params) as <-.
  { unfold paired. rewrite !length_zip_with. lia. }
  rewrite (forEach_seq paired _
             (fun site => reportAll argumentReport (constRequiredSite site))).
  - by apply (forEach_reportAll argumentReport).
  - intros i [p [a l]] s0 Hi. simpl.
    apply lookup_zip_with_Some in Hi as (p' & al & [= <- <-] & Hp & Hal).
    apply lookup_zip_with_Some in Hal as (a' & l' & [= <- <-] & Ha & Hl).
    by eapply verifyCallArgumentAt_reportAll.
Qed.

(** X7: over a module all of whose calls are complete, the call check
    evaluates the arguments of the constant-required parameters of all
    calls in layout order (function, block, instruction, parameter
    index), threading the one evaluator object through, and reports
    exactly the ones whose answer is not constant, in that order: at
    the location of the call when no call expression is recoverable from
    it, at the location of the argument list of the call expression
    when one is. *)
Theorem verifyCallArguments_reports_in_layout_order M s :
  callsAreComplete M = true ->
  verifyCallArguments M s =
  let sites := constRequiredSitesOf M in
  let '(answers, s') := evaluateAll sites.*2 s in
  (Done tt, reports argumentReport sites.*1 answers, s').
Proof.
  unfold callsAreComplete. rewrite forallb_forall. intros Hcalls.
  change (verifyCallArguments M s
          = reportAll argumentReport (constRequiredSitesOf M) s).
  unfold verifyCallArguments, constRequiredSitesOf.
  apply (forEach_reportAll argumentReport). intros F s1 HF.
  specialize (Hcalls F (proj1 (list_elem_of_In _ _) HF)).
  rewrite forallb_forall in Hcalls.
  apply (forEach_reportAll argumentReport). intros BB s2 HBB.
  specialize (Hcalls BB (proj1 (list_elem_of_In _ _) HBB)).
  rewrite forallb_forall in Hcalls.
  apply (forEach_reportAll argumentReport). intros I s3 HI.
  specialize (Hcalls I (proj1 (list_elem_of_In _ _) HI)).
  destruct I as [| | | |[Fn|] args loc|]; try done.
  unfold isCompleteCall in Hcalls. unfold constRequiredSitesOfCall.
  destruct (getAsFuncDecl Fn) as [FD|] eqn:HFD;
    [|by unfold verifyCallArgumentsOf; rewrite HFD].
  destruct (hasConstParameter (getParameters FD)) eqn:Hconst; simpl in Hcalls.
  - apply andb_true_iff in Hcalls as [Hargs%Nat.leb_le Hlocs].
    destruct (argumentLocations loc (getParameters FD)) as [locs|] eqn:HL;
      [|done].
    by apply verifyCallArgumentsOf_reportAll.
  - unfold verifyCallArgumentsOf. rewrite HFD, Hconst.
    destruct (argumentLocations _ _); [by rewrite constRequiredSites_none|done].
Qed.
End FurtherPassFacts.

(** ** Facts about the migration warning *)

Module MigrationFacts.
Import Migration.

Lemma diagnose_Some enabled target d :
  diagnose enabled target = Done (Some d) ->
  enabled = true /\
  targetIsExplicit target = true /\
  targetIsNonisolated target = true /\
  targetHasExecutionAttr target = false /\
  targetIsAsync target = true.
Proof.
  destruct target as [[decl|] iso|[closure|] iso|[repr|] iso]; simpl; try done.
  - destruct enabled, (declIsImplicit decl), (canExecutionAttrAppear decl);
      simpl; try done.
    destruct (match declKind decl with
              | AbstractStorageDecl None _ => true
              | _ => false
              end); try done.
    destruct (isNonisolated iso || isUnspecified iso),
      (declHasExecutionAttr decl), (declIsAsync decl); simpl; done.
  - destruct enabled, (closureIsImplicit closure), (closureKind closure);
      simpl; try done.
    destruct (isNonisolated iso || isUnspecified iso),
      (closureHasExecutionAttr closure), (isBodyAsync closure); simpl; done.
  - destruct enabled, (isNonIsolated iso), (reprIsAsync repr); simpl; done.
Qed.

(** X9: a warning is emitted only when the feature is enabled for
    adoption and the target is explicit, nonisolated (or of unspecified
    isolation), without an execution attribute of its own, and async. *)
Theorem diagnose_warns_only_when_behavior_changes enabled target d :
  diagnose enabled target = Done (Some d) ->
  enabled = true /\
  targetIsExplicit target = true /\
  targetIsNonisolated target = true /\
  targetHasExecutionAttr target = false /\
  targetIsAsync target = true.
Proof. apply diagnose_Some. Qed.

(** X10: for a function declaration the attribute can appear on, a
    closure expression and a function type, with the feature enabled for
    adoption, the four conditions are also sufficient: the warning is
    emitted exactly when the target is explicit, nonisolated, without an
    execution attribute and async. *)
Theorem diagnose_warns_function_like_targets target :
  isFunctionLike target = true ->
  (exists d, diagnose true target = Done (Some d)) <->
  targetIsExplicit target = true /\
  targetIsNonisolated target = true /\
  targetHasExecutionAttr target = false /\
  targetIsAsync target = true.
Proof.
  intros Hlike. split.
  { intros [d Hd]. by destruct (diagnose_Some _ _ _ Hd)
      as (_ & ? & ? & ? & ?). }
  destruct target as [[decl|] iso|[closure|] iso|[repr|] iso]; simpl in *;
    try done.
  - apply andb_true_iff in Hlike as [-> Hkind]. unfold diagnoseDecl.
    destruct (declKind decl); try done.
    intros (->%negb_true_iff & -> & -> & ->). simpl. by eexists.
  - destruct (closureKind closure); [|done].
    intros (->%negb_true_iff & -> & -> & ->). simpl. by eexists.
  - intros (_ & -> & _ & ->). simpl. by eexists.
Qed.

(** X11: what is emitted, by kind of target.  A declaration is
    diagnosed with the declaration diagnostic at the function (for a
    storage declaration, at its parsed getter) and the attribute is
    inserted at the attribute insertion location of the declaration
    itself; a closure is diagnosed at its own location and the attribute
    is added to it; a function type is diagnosed at its start and the
    attribute is inserted there.  A storage declaration with a setter, or
    a null target, never gets a warning. *)
Theorem diagnose_places_the_fixit enabled target d :
  diagnose enabled target = Done (Some d) ->
  match target with
  | DeclTarget (Some decl) _ =>
      migrationID d = attr_execution_nonisolated_behavior_will_change_decl /\
      migrationFixIt d = fixItInsertAttribute (getAttributeInsertionLoc decl) /\
      match declKind decl with
      | AbstractFunctionDecl => migrationLoc d = getDeclLoc decl
      | AbstractStorageDecl (Some getter) None =>
          migrationLoc d = getAccessorLoc getter
      | _ => False
      end
  | ClosureTarget (Some closure) _ =>
      migrationID d = attr_execution_nonisolated_behavior_will_change_closure /\
      migrationFixIt d = fixItAddAttribute closure /\
      migrationLoc d = getClosureLoc closure
  | TypeReprTarget (Some repr) _ =>
      migrationID d = attr_execution_nonisolated_behavior_will_change_typerepr /\
      migrationFixIt d = fixItInsertAttribute (getStartLoc repr) /\
      migrationLoc d = getStartLoc repr
  | _ => False
  end.
Proof.
  destruct target as [[decl|] iso|[closure|] iso|[repr|] iso]; simpl; try done.
  - unfold diagnoseDecl.
    repeat (case_match; simpl; try done); by intros [= <-].
  - repeat (case_match; simpl; try done); by intros [= <-].
  - repeat (case_match; simpl; try done); by intros [= <-].
Qed.

(** X12: with the feature enabled for adoption, [diagnose] trips no
    assertion and fails no cast on a target that is not null and is a
    function type, an implicit closure or a closure expression, a
    function declaration, or a storage declaration without a setter. *)
Theorem diagnose_ends_normally_on_expected_targets target :
  isExpected target = true -> exists r, diagnose true target = Done r.
Proof.
  destruct target as [[decl|] iso|[closure|] iso|[repr|] iso]; simpl; try done.
  - unfold diagnoseDecl. intros Hkind.
    repeat (case_match; simpl in *; try done); by eexists.
  - intros Hkind. repeat (case_match; simpl in *; try done); by eexists.
  - intros _. repeat (case_match; simpl in *; try done); by eexists.
Qed.

(** X13: a storage declaration with a parsed getter and a setter trips
    the assertion of [diagnose] exactly when all conditions of the
    warning hold; otherwise nothing is emitted. *)
Theorem diagnose_asserts_on_a_settable_storage decl getter setter isolation :
  declKind decl = AbstractStorageDecl (Some getter) (Some setter) ->
  diagnose true (DeclTarget (Some decl) isolation) =
  if negb (declIsImplicit decl) && canExecutionAttrAppear decl
     && (isNonisolated isolation || isUnspecified isolation)
     && negb (declHasExecutionAttr decl) && declIsAsync decl
  then Crash AssertionFailure
  else Done None.
Proof.
  intros Hkind. simpl. unfold diagnoseDecl. rewrite Hkind.
  by destruct (declIsImplicit decl), (canExecutionAttrAppear decl),
    (isNonisolated isolation || isUnspecified isolation),
    (declHasExecutionAttr decl), (declIsAsync decl).
Qed.

End MigrationFacts.

(** ** Facts about the interoperability header *)

Module CxxInteropFacts.
Import CxxInterop.

(** *** OpaqueStorage *)

Ltac split_lookups :=
  repeat match goal with
    | H : <[_:=_]> _ !! _ = Some _ |- _ =>
        apply lookup_insert_Some in H; destruct H as [[? ?]|[? ?]]
    | H : delete _ _ !! _ = Some _ |- _ =>
        apply lookup_delete_Some in H; destruct H as [? ?]
    end;
  simplify_eq; try done.

Ltac solve_owner :=
  split_lookups; eauto; try (by exfalso; eauto); try (by symmetry; eauto).

Section Allocator.
Variable posix_memalign : gset nat -> nat -> nat -> option nat.

Lemma perform_uniquelyOwned op h h' :
  handsOutFreshBlocks posix_memalign ->
  uniquelyOwned h -> perform posix_memalign op h = Ok h' -> uniquelyOwned h'.
Proof.
  unfold uniquelyOwned, owns. intros fresh_blocks (Hlive & Huniq & Hown) Hop.
  destruct op as [this|this size alignment|this other|this other|this];
    simpl in *.
  - unfold constructDefault in Hop.
    destruct (storages h !! this) eqn:Hthis; simplify_eq. simpl.
    split; [|split].
    + intros t p Ht. solve_owner.
    + intros t o p Ht Ho. solve_owner.
    + intros p Hp. destruct (Hown p Hp) as [t Ht]. exists t.
      rewrite lookup_insert_ne; [done|congruence].
  - unfold constructAllocated in Hop.
    destruct (storages h !! this) eqn:Hthis; simplify_eq. simpl.
    assert (forall p, opaqueAlloc posix_memalign (liveBlocks h) size alignment
                      = Some p -> p ∉ liveBlocks h) as Hfresh.
    { intros p Hp. by eapply fresh_blocks. }
    destruct (opaqueAlloc _ _ _ _) as [block|].
    + specialize (Hfresh _ eq_refl). split; [|split].
      * intros t p Ht. split_lookups; [set_solver|].
        apply elem_of_union_r. eauto.
      * intros t o p Ht Ho. solve_owner.
      * intros p [->%elem_of_singleton|Hp]%elem_of_union.
        { exists this. apply lookup_insert_eq. }
        destruct (Hown p Hp) as [t Ht]. exists t.
        rewrite lookup_insert_ne; [done|congruence].
    + split; [|split].
      * intros t p Ht. solve_owner.
      * intros t o p Ht Ho. solve_owner.
      * intros p Hp. destruct (Hown p Hp) as [t Ht]. exists t.
        rewrite lookup_insert_ne; [done|congruence].
  - unfold constructMoved in Hop.
    destruct (storages h !! this) eqn:Hthis; [done|].
    destruct (storages h !! other) as [os|] eqn:Hother; simplify_eq. simpl.
    assert (this <> other) as Hne by congruence.
    split; [|split].
    + intros t p Ht. solve_owner.
    + intros t o p Ht Ho. solve_owner.
    + intros p Hp. destruct (Hown p Hp) as [t Ht].
      destruct (decide (t = other)) as [->|].
      * exists this. rewrite lookup_insert_ne by done.
        rewrite lookup_insert_eq. congruence.
      * exists t. rewrite !lookup_insert_ne; [done|congruence|done].
  - unfold moveAssign in Hop.
    destruct (storages h !! this) as [temp|] eqn:Hthis; [|done].
    destruct (storages h !! other) as [os|] eqn:Hother; simplify_eq. simpl.
    split; [|split].
    + intros t p Ht. solve_owner.
    + intros t o p Ht Ho. solve_owner.
    + intros p Hp. destruct (Hown p Hp) as [t Ht].
      destruct (decide (t = this)) as [->|].
      * exists other. rewrite lookup_insert_eq. congruence.
      * destruct (decide (t = other)) as [->|].
        { exists this. rewrite lookup_insert_ne by done.
          rewrite lookup_insert_eq. congruence. }
        exists t. by rewrite !lookup_insert_ne.
  - unfold destroy, opaqueFree in Hop.
    destruct (storages h !! this) as [[p|]|] eqn:Hthis; [| |done].
    + case_decide; simplify_eq. simpl. split; [|split].
      * intros t q Ht. split_lookups.
        apply elem_of_difference. split; [eauto|].
        intros ->%elem_of_singleton. eauto.
      * intros t o q Ht Ho. solve_owner.
      * intros q [Hq Hne]%elem_of_difference.
        destruct (Hown q Hq) as [t Ht]. exists t.
        rewrite lookup_delete_ne; [done|]. intros ->. set_solver.
    + simplify_eq. simpl. split; [|split].
      * intros t q Ht. solve_owner.
      * intros t o q Ht Ho. solve_owner.
      * intros q Hq. destruct (Hown q Hq) as [t Ht]. exists t.
        rewrite lookup_delete_ne; [done|congruence].
Qed.

Lemma perform_fault op h f :
  uniquelyOwned h -> perform posix_memalign op h = Err f -> f = NoSuchObject.
Proof.
  intros (Hlive & _ & _).
  destruct op as [this|this size alignment|this other|this other|this];
    simpl.
  - unfold constructDefault. by case_match; intros [= <-].
  - unfold constructAllocated. by case_match; intros [= <-].
  - unfold constructMoved. by repeat case_match; intros [= <-].
  - unfold moveAssign. by repeat case_match; intros [= <-].
  - unfold destroy, opaqueFree.
    destruct (storages h !! this) as [[p|]|] eqn:Hthis; [| |by intros [= <-]].
    + rewrite decide_True; [done|]. by eapply Hlive.
    + done.
Qed.

Lemma performAll_uniquelyOwned ops h :
  handsOutFreshBlocks posix_memalign ->
  uniquelyOwned h ->
  match performAll posix_memalign ops h with
  | Ok h' => uniquelyOwned h'
  | Err f => f = NoSuchObject
  end.
Proof.
  intros Hfresh. revert h.
  induction ops as [|op ops IH]; intros h Hh; simpl; [done|].
  destruct (perform posix_memalign op h) as [h1|f] eqn:Hop.
  - apply IH. by eapply perform_uniquelyOwned.
  - by eapply perform_fault.
Qed.

(** X14: a program over [OpaqueStorage] objects that starts with every
    block owned by exactly one object, on an allocator that hands out
    fresh blocks, keeps it so; the only way it can go wrong is by naming
    an object that does not exist, never by freeing a block that is not
    allocated. *)
Theorem opaque_storage_never_frees_twice ops h :
  handsOutFreshBlocks posix_memalign ->
  uniquelyOwned h ->
  match performAll posix_memalign ops h with
  | Ok h' => uniquelyOwned h'
  | Err f => f = NoSuchObject
  end.
Proof. apply performAll_uniquelyOwned. Qed.

(** X15: when such a program has destroyed all its objects, no block is
    left allocated. *)
Theorem opaque_storage_leaves_no_block_behind ops h h' :
  handsOutFreshBlocks posix_memalign ->
  uniquelyOwned h ->
  performAll posix_memalign ops h = Ok h' ->
  storages h' = ∅ ->
  liveBlocks h' = ∅.
Proof.
  intros Hfresh Hh Hops Hnone.
  pose proof (performAll_uniquelyOwned ops h Hfresh Hh) as Hinv.
  rewrite Hops in Hinv. destruct Hinv as (_ & _ & Hown).
  apply set_eq. intros p. split; [|set_solver].
  intros [t Ht]%Hown. unfold owns in Ht. by rewrite Hnone in Ht.
Qed.
End Allocator.

Lemma emptyHeap_uniquelyOwned : uniquelyOwned emptyHeap.
Proof.
  unfold uniquelyOwned, owns, emptyHeap. simpl. split; [|split].
  - intros ? ?. by rewrite lookup_empty.
  - intros ? ? ?. by rewrite lookup_empty.
  - set_solver.
Qed.

(** X16: move assignment exchanges the storages of the two objects and
    frees nothing; assigning an object to itself changes nothing. *)
Theorem moveAssign_exchanges_the_storages this other h h' :
  moveAssign this other h = Ok h' ->
  getOpaquePointer this h' = getOpaquePointer other h /\
  getOpaquePointer other h' = getOpaquePointer this h /\
  liveBlocks h' = liveBlocks h /\
  (this = other -> h' = h).
Proof.
  unfold moveAssign, getOpaquePointer.
  destruct (storages h !! this) as [temp|] eqn:Hthis; [|done].
  destruct (storages h !! other) as [os|] eqn:Hother; [|done].
  intros [= <-]. simpl. split; [|split; [|split]].
  - destruct (decide (other = this)) as [->|Hne].
    + rewrite lookup_insert_eq. congruence.
    + by rewrite lookup_insert_ne, lookup_insert_eq.
  - by rewrite lookup_insert_eq.
  - done.
  - intros ->. destruct h as [s l]. simpl in *. f_equal.
    rewrite insert_insert_eq. apply insert_id. congruence.
Qed.

(** X17: after a move construction the moved-from object holds no block:
    destroying it frees nothing, and the new object has the block. *)
Theorem moved_from_storage_frees_nothing this other h h1 :
  constructMoved this other h = Ok h1 ->
  exists h2,
    destroy other h1 = Ok h2 /\
    liveBlocks h2 = liveBlocks h /\
    getOpaquePointer this h2 = getOpaquePointer other h.
Proof.
  unfold constructMoved, destroy, getOpaquePointer.
  destruct (storages h !! this) eqn:Hthis; [done|].
  destruct (storages h !! other) as [os|] eqn:Hother; [|done].
  intros [= <-]. simpl. rewrite lookup_insert_eq. eexists. split; [done|].
  simpl. split; [done|].
  assert (this <> other) as Hne by congruence.
  rewrite lookup_delete_ne by done. rewrite lookup_insert_ne by done.
  by rewrite lookup_insert_eq.
Qed.

(** *** RefCountedClass and Error *)

Section Holding.
Context {V : Type} (P : V -> Prop) `{!forall v, Decision (P v)}.

Lemma holding_insert_fresh (objs : gmap nat V) this v :
  objs !! this = None ->
  holding P (<[this := v]> objs) =
  (if decide (P v) then 1 else 0) + holding P objs.
Proof.
  intros Hthis. unfold holding. rewrite map_filter_insert. simpl.
  destruct (decide (P v)).
  - rewrite map_size_insert_None; [done|].
    apply map_lookup_filter_None. by left.
  - by rewrite delete_id.
Qed.

Lemma holding_delete (objs : gmap nat V) this v :
  objs !! this = Some v ->
  holding P objs = (if decide (P v) then 1 else 0) + holding P (delete this objs).
Proof.
  intros Hthis. rewrite <- (insert_delete_id objs this v) at 1 by done.
  apply holding_insert_fresh, lookup_delete_eq.
Qed.

Lemma holding_insert (objs : gmap nat V) this v w :
  objs !! this = Some w ->
  holding P (<[this := v]> objs) + (if decide (P w) then 1 else 0) =
  (if decide (P v) then 1 else 0) + holding P objs.
Proof.
  intros Hthis. rewrite <- insert_delete_eq.
  rewrite holding_insert_fresh by apply lookup_delete_eq.
  rewrite (holding_delete objs this w) by done. lia.
Qed.
End Holding.

Lemma strongBalance_app p calls calls' :
  strongBalance p (calls ++ calls') =
  (strongBalance p calls + strongBalance p calls')%Z.
Proof.
  induction calls as [|c calls IH]; simpl; [done|]. unfold strongBalance in *.
  rewrite IH. lia.
Qed.

Lemma errorBalance_app p calls calls' :
  errorBalance p (calls ++ calls') =
  (errorBalance p calls + errorBalance p calls')%Z.
Proof.
  induction calls as [|c calls IH]; simpl; [done|]. unfold errorBalance in *.
  rewrite IH. lia.
Qed.

Ltac count_references :=
  simpl;
  repeat first [case_bool_decide | case_decide]; simplify_eq; try done; lia.

Lemma performOnHandles_balance p op objs objs' calls :
  performOnHandles op objs = Ok (objs', calls) ->
  Z.of_nat (handlesOf p objs') =
  (Z.of_nat (handlesOf p objs)
   + (if adoptsHandle p op then 1 else 0) + strongBalance p calls)%Z.
Proof.
  unfold handlesOf.
  destruct op as [this ptr|this other|this other|this other|this]; simpl.
  - unfold constructFromPointer.
    destruct (objs !! this) eqn:Hthis; [done|]. intros [= <- <-].
    pose proof (holding_insert_fresh (fun q => q = p) objs this ptr Hthis).
    count_references.
  - unfold copyConstruct.
    destruct (objs !! this) eqn:Hthis; [done|].
    destruct (objs !! other) as [q|] eqn:Hother; [|done]. intros [= <- <-].
    pose proof (holding_insert_fresh (fun q => q = p) objs this q Hthis).
    count_references.
  - unfold copyAssign.
    destruct (objs !! this) as [mine|] eqn:Hthis; [|done].
    destruct (objs !! other) as [q|] eqn:Hother; [|done]. intros [= <- <-].
    pose proof (holding_insert (fun q => q = p) objs this q mine Hthis).
    count_references.
  - done.
  - unfold destroyHandle.
    destruct (objs !! this) as [mine|] eqn:Hthis; [|done]. intros [= <- <-].
    pose proof (holding_delete (fun q => q = p) objs this mine Hthis).
    count_references.
Qed.

(** X18: every [RefCountedClass] object stands for one strong reference.
    Over any program that completes, the objects that hold [p] at the end
    are the ones that held it at the start, plus the ones constructed
    from the pointer, plus the references retained, less the ones
    released. *)
Theorem handles_account_for_their_references p ops objs objs' calls :
  performAllOnHandles ops objs = Ok (objs', calls) ->
  Z.of_nat (handlesOf p objs') =
  (Z.of_nat (handlesOf p objs) + Z.of_nat (adoptedHandles p ops)
   + strongBalance p calls)%Z.
Proof.
  revert objs objs' calls.
  induction ops as [|op ops IH]; intros objs objs' calls; simpl.
  { intros [= <- <-]. unfold adoptedHandles. rewrite filter_nil. simpl. lia. }
  destruct (performOnHandles op objs) as [[objs1 calls1]|] eqn:Hop; [|done].
  destruct (performAllOnHandles ops objs1) as [[objs2 calls2]|] eqn:Hops;
    [|done].
  intros [= <- <-]. rewrite strongBalance_app.
  rewrite (IH _ _ _ Hops), (performOnHandles_balance p _ _ _ _ Hop).
  unfold adoptedHandles. rewrite filter_cons.
  case_decide as Hop'.
  - rewrite Hop'. simpl length. lia.
  - apply not_true_is_false in Hop'. rewrite Hop'. lia.
Qed.

Lemma performOnErrors_balance p op errs errs' calls :
  performOnErrors op errs = Ok (errs', calls) ->
  Z.of_nat (errorsOf p errs') =
  (Z.of_nat (errorsOf p errs)
   + (if adoptsError p op then 1 else 0) + errorBalance p calls)%Z.
Proof.
  unfold errorsOf.
  destruct op as [this|this swiftError|this other|this other|this]; simpl.
  - unfold constructEmptyError.
    destruct (errs !! this) eqn:Hthis; [done|]. intros [= <- <-].
    pose proof (holding_insert_fresh (fun value => value = Some p)
                  errs this None Hthis).
    count_references.
  - unfold constructError.
    destruct (errs !! this) eqn:Hthis; [done|]. intros [= <- <-].
    pose proof (holding_insert_fresh (fun value => value = Some p)
                  errs this (Some swiftError) Hthis).
    count_references.
  - unfold moveConstructError.
    destruct (errs !! this) eqn:Hthis; [done|].
    destruct (errs !! other) as [value|] eqn:Hother; [|done].
    intros [= <- <-].
    assert (this <> other) as Hne by congruence.
    assert (<[this := value]> errs !! other = Some value) as Hother'.
    { by rewrite lookup_insert_ne. }
    pose proof (holding_insert (fun value => value = Some p)
                  _ other None value Hother') as Hmove.
    pose proof (holding_insert_fresh (fun value => value = Some p)
                  errs this value Hthis).
    count_references.
  - unfold copyConstructError.
    destruct (errs !! this) eqn:Hthis; [done|].
    destruct (errs !! other) as [value|] eqn:Hother; [|done].
    intros [= <- <-].
    pose proof (holding_insert_fresh (fun value => value = Some p)
                  errs this value Hthis).
    destruct value as [q|]; count_references.
  - unfold destroyError.
    destruct (errs !! this) as [[q|]|] eqn:Hthis; [| |done];
      intros [= <- <-];
      pose proof (holding_delete (fun value => value = Some p) errs this _ Hthis);
      count_references.
Qed.

(** X19: the same for [Error] objects, whose pointer may be null: a null
    error takes and gives up no reference, and a moved-from error is
    null. *)
Theorem errors_account_for_their_references p ops errs errs' calls :
  performAllOnErrors ops errs = Ok (errs', calls) ->
  Z.of_nat (errorsOf p errs') =
  (Z.of_nat (errorsOf p errs) + Z.of_nat (adoptedErrors p ops)
   + errorBalance p calls)%Z.
Proof.
  revert errs errs' calls.
  induction ops as [|op ops IH]; intros errs errs' calls; simpl.
  { intros [= <- <-]. unfold adoptedErrors. rewrite filter_nil. simpl. lia. }
  destruct (performOnErrors op errs) as [[errs1 calls1]|] eqn:Hop; [|done].
  destruct (performAllOnErrors ops errs1) as [[errs2 calls2]|] eqn:Hops;
    [|done].
  intros [= <- <-]. rewrite errorBalance_app.
  rewrite (IH _ _ _ Hops), (performOnErrors_balance p _ _ _ _ Hop).
  unfold adoptedErrors. rewrite filter_cons.
  case_decide as Hop'.
  - rewrite Hop'. simpl length. lia.
  - apply not_true_is_false in Hop'. rewrite Hop'. lia.
Qed.

End CxxInteropFacts.

(** ** Further examples *)

Module FurtherExampleFacts.
Import Evaluator Examples FurtherExamples.

Lemma run_without_const_witness :
  usesConst plainModule = false /\
  run (CE := exampleEvaluator) (GU := storeInits) plainModule initialState
  = (Done tt, [], initialState).
Proof.
  split; [reflexivity|].
  apply (run_without_const_is_silent (CE := exampleEvaluator) (GU := storeInits)).
  reflexivity.
Defined.

Lemma run_ends_normally_witness :
  callsAreComplete completeModule = true /\
  neverFaults (run (CE := exampleEvaluator) (GU := storeInits) completeModule).
Proof.
  split; [reflexivity|].
  apply (run_ends_normally (CE := exampleEvaluator) (GU := storeInits)).
  reflexivity.
Defined.

Lemma run_is_silent_when_everything_folds_witness :
  FoldsEverything (CE := foldingEvaluator) /\
  initializersAreStores (GU := storeInits) wholeModule = true /\
  initializersHaveStores (GU := storeInits) wholeModule = true /\
  diagnosticsOf (run (CE := foldingEvaluator) (GU := storeInits) wholeModule tt)
  = [].
Proof.
  assert (FoldsEverything (CE := foldingEvaluator)) as Hfolds.
  { intros v s. split; reflexivity. }
  split; [exact Hfolds|]. split; [reflexivity|]. split; [reflexivity|].
  apply (run_is_silent_when_everything_folds
           (CE := foldingEvaluator) (GU := storeInits) wholeModule tt Hfolds);
    reflexivity.
Defined.

Lemma verifyCallArguments_layout_order_witness :
  callsAreComplete completeModule = true /\
  verifyCallArguments (CE := exampleEvaluator) completeModule initialState =
  let sites := constRequiredSitesOf completeModule in
  let '(answers, s') :=
    evaluateAll (CE := exampleEvaluator) sites.*2 initialState in
  (Done tt, reports argumentReport sites.*1 answers, s').
Proof.
  split; [reflexivity|].
  apply (verifyCallArguments_reports_in_layout_order (CE := exampleEvaluator)).
  reflexivity.
Defined.

(** On that module the pass runs to its end: two diagnostics for the
    global with two opaque operands, one for the local binding, one for
    the second argument of the first call, at the location of the call
    (50), and one for the first argument of the second call, at the
    location of its argument list (49). *)
Example run_on_a_complete_module :
  let result := run (CE := exampleEvaluator) (GU := storeInits)
                  completeModule initialState in
  outcomeOf result = Done tt /\
  diagnosticsOf result =
    [mkDiagnostic 100 require_const_initializer_for_const;
     mkDiagnostic 100 require_const_initializer_for_const;
     mkDiagnostic 61 require_const_arg_for_parameter;
     mkDiagnostic 50 require_const_arg_for_parameter;
     mkDiagnostic 49 require_const_arg_for_parameter].
Proof. vm_compute. by split. Qed.

Import Migration MigrationExamples.

Lemma diagnose_warns_only_when_behavior_changes_witness :
  Migration.diagnose true asyncFunctionTarget = Done (Some asyncFunctionWarning) /\
  true = true /\
  targetIsExplicit asyncFunctionTarget = true /\
  targetIsNonisolated asyncFunctionTarget = true /\
  targetHasExecutionAttr asyncFunctionTarget = false /\
  targetIsAsync asyncFunctionTarget = true.
Proof.
  split; [reflexivity|].
  apply (MigrationFacts.diagnose_warns_only_when_behavior_changes
           true asyncFunctionTarget asyncFunctionWarning).
  reflexivity.
Defined.

Lemma diagnose_warns_function_like_targets_witness :
  isFunctionLike asyncFunctionTarget = true /\
  ((exists d, Migration.diagnose true asyncFunctionTarget = Done (Some d)) <->
   targetIsExplicit asyncFunctionTarget = true /\
   targetIsNonisolated asyncFunctionTarget = true /\
   targetHasExecutionAttr asyncFunctionTarget = false /\
   targetIsAsync asyncFunctionTarget = true).
Proof.
  split; [reflexivity|].
  apply (MigrationFacts.diagnose_warns_function_like_targets asyncFunctionTarget).
  reflexivity.
Defined.

Lemma diagnose_places_the_fixit_witness :
  Migration.diagnose true asyncPropertyTarget = Done (Some asyncPropertyWarning) /\
  migrationID asyncPropertyWarning =
    attr_execution_nonisolated_behavior_will_change_decl /\
  migrationFixIt asyncPropertyWarning =
    fixItInsertAttribute (getAttributeInsertionLoc asyncProperty) /\
  migrationLoc asyncPropertyWarning = 210.
Proof.
  split; [reflexivity|].
  exact (MigrationFacts.diagnose_places_the_fixit
           true asyncPropertyTarget asyncPropertyWarning eq_refl).
Defined.

Lemma diagnose_ends_normally_witness :
  isExpected asyncPropertyTarget = true /\
  exists r, Migration.diagnose true asyncPropertyTarget = Done r.
Proof.
  split; [reflexivity|].
  apply (MigrationFacts.diagnose_ends_normally_on_expected_targets
           asyncPropertyTarget).
  reflexivity.
Defined.

Lemma diagnose_asserts_on_a_settable_storage_witness :
  declKind settableStorage =
    AbstractStorageDecl (Some (mkAccessorDecl 220)) (Some (mkAccessorDecl 221)) /\
  Migration.diagnose true (DeclTarget (Some settableStorage) nonisolated) =
  Crash AssertionFailure.
Proof.
  split; [reflexivity|].
  exact (MigrationFacts.diagnose_asserts_on_a_settable_storage
           settableStorage (mkAccessorDecl 220) (mkAccessorDecl 221)
           nonisolated eq_refl).
Defined.

Import CxxInterop CxxInteropExamples.

Lemma bumpAllocator_fresh : handsOutFreshBlocks bumpAllocator.
Proof. intros live align size p [= <-]. apply is_fresh. Qed.

Lemma opaque_storage_never_frees_twice_witness :
  handsOutFreshBlocks bumpAllocator /\
  uniquelyOwned emptyHeap /\
  match performAll bumpAllocator storageProgram emptyHeap with
  | Ok h' => uniquelyOwned h'
  | Err f => f = NoSuchObject
  end.
Proof.
  split; [exact bumpAllocator_fresh|].
  split; [exact CxxInteropFacts.emptyHeap_uniquelyOwned|].
  apply (CxxInteropFacts.opaque_storage_never_frees_twice
           bumpAllocator storageProgram emptyHeap).
  - exact bumpAllocator_fresh.
  - exact CxxInteropFacts.emptyHeap_uniquelyOwned.
Defined.

Lemma opaque_storage_leaves_no_block_behind_witness :
  handsOutFreshBlocks bumpAllocator /\
  uniquelyOwned emptyHeap /\
  performAll bumpAllocator storageProgram emptyHeap = Ok emptyHeap /\
  storages emptyHeap = ∅ /\
  liveBlocks emptyHeap = ∅.
Proof.
  split; [exact bumpAllocator_fresh|].
  split; [exact CxxInteropFacts.emptyHeap_uniquelyOwned|].
  split; [vm_compute; reflexivity|]. split; [reflexivity|].
  apply (CxxInteropFacts.opaque_storage_leaves_no_block_behind
           bumpAllocator storageProgram emptyHeap emptyHeap).
  - exact bumpAllocator_fresh.
  - exact CxxInteropFacts.emptyHeap_uniquelyOwned.
  - vm_compute; reflexivity.
  - reflexivity.
Defined.

Lemma moveAssign_exchanges_the_storages_witness :
  moveAssign 1 0 oneStorage = Ok swappedStorage /\
  getOpaquePointer 1 swappedStorage = getOpaquePointer 0 oneStorage /\
  getOpaquePointer 0 swappedStorage = getOpaquePointer 1 oneStorage /\
  liveBlocks swappedStorage = liveBlocks oneStorage /\
  (1 = 0 -> swappedStorage = oneStorage).
Proof.
  split; [vm_compute; reflexivity|].
  apply (CxxInteropFacts.moveAssign_exchanges_the_storages 1 0).
  vm_compute; reflexivity.
Defined.

Lemma moved_from_storage_frees_nothing_witness :
  constructMoved 2 1 swappedStorage = Ok movedStorage /\
  exists h2,
    destroy 1 movedStorage = Ok h2 /\
    liveBlocks h2 = liveBlocks swappedStorage /\
    getOpaquePointer 2 h2 = getOpaquePointer 1 swappedStorage.
Proof.
  split; [vm_compute; reflexivity|].
  apply (CxxInteropFacts.moved_from_storage_frees_nothing 2 1).
  vm_compute; reflexivity.
Defined.

Lemma handles_account_for_their_references_witness :
  performAllOnHandles handleProgram ∅ = Ok ({[ 1 := 7 ]}, handleCalls) /\
  Z.of_nat (handlesOf 7 {[ 1 := 7 ]}) =
  (Z.of_nat (handlesOf 7 ∅) + Z.of_nat (adoptedHandles 7 handleProgram)
   + strongBalance 7 handleCalls)%Z.
Proof.
  split; [vm_compute; reflexivity|].
  apply (CxxInteropFacts.handles_account_for_their_references 7 handleProgram).
  vm_compute; reflexivity.
Defined.

Lemma errors_account_for_their_references_witness :
  performAllOnErrors errorProgram ∅ = Ok ({[ 2 := Some 7 ]}, errorCalls) /\
  Z.of_nat (errorsOf 7 {[ 2 := Some 7 ]}) =
  (Z.of_nat (errorsOf 7 ∅) + Z.of_nat (adoptedErrors 7 errorProgram)
   + errorBalance 7 errorCalls)%Z.
Proof.
  split; [vm_compute; reflexivity|].
  apply (CxxInteropFacts.errors_account_for_their_references 7 errorProgram).
  vm_compute; reflexivity.
Defined.
End FurtherExampleFacts.
